(** * Access-control evaluators of pkg/services/accesscontrol/evaluator.go

    A shallow embedding of the scope matcher, of the three evaluators
    (permission, all, any) and of their scope-rewriting pass, followed by
    the properties the specification states about them. *)

From Stdlib Require Import Ascii String List Bool Arith Lia.
From stdpp Require Import base option list gmap strings.

Local Open Scope string_scope.
Local Open Scope list_scope.
Local Open Scope nat_scope.

Set Warnings "-register-all".

#[local] Arguments String.append : simpl nomatch.

(** ** Strings

    A Go string is a sequence of bytes, which is what [string] is.  The
    helpers below are the slice expressions and the [strings] functions the
    source uses. *)

(** [strings.HasPrefix(s, prefix)]:
    [len(s) >= len(prefix) && s[:len(prefix)] == prefix]. *)
Definition HasPrefix (s prefix : string) : bool :=
  Nat.leb (String.length prefix) (String.length s)
  && String.eqb (String.substring 0 (String.length prefix) s) prefix.

(** [s[:len(s)-1]], for a non-empty [s]. *)
Definition init_bytes (s : string) : string :=
  String.substring 0 (String.length s - 1) s.

(** [s[len(s)-1]], for a non-empty [s]. *)
Definition last_byte (s : string) : option ascii :=
  String.get (String.length s - 1) s.

(** [b == '*'] for the byte read by [last_byte]. *)
Definition is_star (b : option ascii) : bool :=
  match b with
  | Some c => Ascii.eqb c "*"
  | None => false
  end.

(** ** Errors

    A Go [error] is an interface value; [nil] is "no error".  An error is
    kept as its message, and a result [(v, err)] as a pair whose second
    component is [None] for [nil]. *)
Inductive error : Type :=
| Err (msg : string).

(** [err != nil] *)
Definition not_nil (err : option error) : bool :=
  match err with
  | Some _ => true
  | None => false
  end.

Section Matcher.

(** [ValidateScope] is declared in another file of the package; [match]
    only branches on its verdict. *)
Variable ValidateScope : string -> bool.

(** [func match(scope, target string) (bool, error)].  The two logger
    calls write to the log and do not take part in the result. *)
Definition match_ (scope target : string) : bool * option error :=
  if String.eqb scope "" then (false, None)
  else if negb (ValidateScope scope) then (false, None)
  else
    let prefix := init_bytes scope in
    let last := last_byte scope in
    if is_star last then
      if HasPrefix target prefix then (true, None)
      else (String.eqb scope target, None)
    else (String.eqb scope target, None).

End Matcher.

(** ** Evaluators *)

Section Evaluators.

(** What a scope modifier can reach besides its argument: the closure
    built by a resolver reads the signed-in user or looks a name up in
    the database.  A call takes the world as it is and leaves the world
    as the call made it. *)
Variable World : Type.

Variable ValidateScope : string -> bool.

(** [type ScopeModifier func(string) (string, error)] *)
Definition ScopeModifier : Type :=
  string -> World -> (string * option error) * World.

(** [type Evaluator interface { Evaluate; ModifyScopes; String }] with the
    three implementations of the file; [String], which renders an evaluator
    for the log, is left out.  [Scopes] is a slice that the code
    compares with [nil]: [None] is the nil slice and [Some l] a slice with
    the elements [l].  The slices [allOf] and [anyOf] are only ranged
    over, which does not tell a nil slice from an empty one, so they are
    lists.  The interface is exported and [EvalAll] and [EvalAny] take any
    implementation of it: [externEvaluator] is an implementation from
    outside this file, given by its methods. *)
Inductive Evaluator : Type :=
| permissionEvaluator (Action : string) (Scopes : option (list string))
| allEvaluator (allOf : list Evaluator)
| anyEvaluator (anyOf : list Evaluator)
| externEvaluator
    (evaluate : gmap string (gset string) -> bool * option error)
    (modifyScopes : ScopeModifier -> World -> (Evaluator + error) * World).

(** [func EvalPermission(action string, scopes ...string) Evaluator] *)
Definition EvalPermission (action : string) (scopes : option (list string))
  : Evaluator :=
  permissionEvaluator action scopes.

(** [func EvalAll(allOf ...Evaluator) Evaluator] *)
Definition EvalAll (allOf : list Evaluator) : Evaluator := allEvaluator allOf.

(** [func EvalAny(anyOf ...Evaluator) Evaluator] *)
Definition EvalAny (anyOf : list Evaluator) : Evaluator := anyEvaluator anyOf.

(** [len(s)] and the elements [range s] visits, for a slice. *)
Definition elems {A : Type} (s : option (list A)) : list A :=
  match s with
  | None => []
  | Some l => l
  end.

Definition len {A : Type} (s : option (list A)) : nat := length (elems s).

(** *** Evaluate *)

(** The inner loop of [permissionEvaluator.Evaluate],
    [for scope := range userScopes], over the scopes in the order the
    iteration produces them: [inl err] is [return false, err], [inr b] is
    leaving the loop with [matches == b]. *)
Fixpoint range_userScopes (l : list string) (target : string)
  : error + bool :=
  match l with
  | [] => inr false
  | scope :: l' =>
      match match_ ValidateScope scope target with
      | (_, Some err) => inl err
      | (true, None) => inr true
      | (false, None) => range_userScopes l' target
      end
  end.

(** The outer loop, [for _, target := range p.Scopes].  Go ranges over the
    map [userScopes] in an order of its choosing; [elements] is one such
    order, and [range_userScopes_order] below shows that the order plays no
    part in the result. *)
Fixpoint range_Scopes (userScopes : gset string) (targets : list string)
  : bool * option error :=
  match targets with
  | [] => (true, None)
  | target :: targets' =>
      match range_userScopes (elements userScopes) target with
      | inl err => (false, Some err)
      | inr false => (false, None)
      | inr true => range_Scopes userScopes targets'
      end
  end.

(** The loop of [allEvaluator.Evaluate] over the children, [eval] being
    the call [e.Evaluate(permissions)]. *)
Definition range_allOf {A : Type} (eval : A -> bool * option error)
  : list A -> bool * option error :=
  fix range (l : list A) : bool * option error :=
    match l with
    | [] => (true, None)
    | e :: l' =>
        let '(ok, err) := eval e in
        if negb ok || not_nil err then (false, err)
        else range l'
    end.

(** The loop of [anyEvaluator.Evaluate]. *)
Definition range_anyOf {A : Type} (eval : A -> bool * option error)
  : list A -> bool * option error :=
  fix range (l : list A) : bool * option error :=
    match l with
    | [] => (false, None)
    | e :: l' =>
        let '(ok, err) := eval e in
        if not_nil err then (false, err)
        else if ok then (true, None)
        else range l'
    end.

Fixpoint Evaluate (e : Evaluator) (permissions : gmap string (gset string))
  {struct e} : bool * option error :=
  match e with
  | permissionEvaluator Action Scopes =>
      match permissions !! Action with
      | None => (false, None)
      | Some userScopes =>
          if Nat.eqb (len Scopes) 0 then (true, None)
          else range_Scopes userScopes (elems Scopes)
      end
  | allEvaluator allOf =>
      range_allOf (fun e' => Evaluate e' permissions) allOf
  | anyEvaluator anyOf =>
      range_anyOf (fun e' => Evaluate e' permissions) anyOf
  | externEvaluator evaluate _ => evaluate permissions
  end.

(** *** ModifyScopes *)

(** The loop of [permissionEvaluator.ModifyScopes]; [scopes] is the slice
    being appended to. *)
Fixpoint range_resolve (fn : ScopeModifier) (l : list string)
  (scopes : list string) (w : World) : (list string + error) * World :=
  match l with
  | [] => (inl scopes, w)
  | scope :: l' =>
      let '((resolved, err), w') := fn scope w in
      match err with
      | Some e => (inr e, w')
      | None => range_resolve fn l' (scopes ++ [resolved]) w'
      end
  end.

(** The loop shared by [allEvaluator.ModifyScopes] and
    [anyEvaluator.ModifyScopes], [modify] being the call
    [e.ModifyScopes(fn)]. *)
Definition range_children {A : Type}
  (modify : A -> World -> (Evaluator + error) * World)
  : list A -> list Evaluator -> World -> (list Evaluator + error) * World :=
  fix range (l : list A) (resolved : list Evaluator) (w : World)
    : (list Evaluator + error) * World :=
    match l with
    | [] => (inl resolved, w)
    | e :: l' =>
        match modify e w with
        | (inr err, w') => (inr err, w')
        | (inl i, w') => range l' (resolved ++ [i]) w'
        end
    end.

Fixpoint ModifyScopes (e : Evaluator) (fn : ScopeModifier) (w : World)
  {struct e} : (Evaluator + error) * World :=
  match e with
  | permissionEvaluator Action Scopes =>
      match Scopes with
      | None => (inl (EvalPermission Action None), w)
      | Some l =>
          match range_resolve fn l [] w with
          | (inr err, w') => (inr err, w')
          | (inl scopes, w') => (inl (EvalPermission Action (Some scopes)), w')
          end
      end
  | allEvaluator allOf =>
      match range_children (fun e' => ModifyScopes e' fn) allOf [] w with
      | (inr err, w') => (inr err, w')
      | (inl resolved, w') => (inl (EvalAll resolved), w')
      end
  | anyEvaluator anyOf =>
      match range_children (fun e' => ModifyScopes e' fn) anyOf [] w with
      | (inr err, w') => (inr err, w')
      | (inl resolved, w') => (inl (EvalAny resolved), w')
      end
  | externEvaluator _ modifyScopes => modifyScopes fn w
  end.

End Evaluators.

Arguments permissionEvaluator {World} Action Scopes.
Arguments allEvaluator {World} allOf.
Arguments anyEvaluator {World} anyOf.
Arguments externEvaluator {World} evaluate modifyScopes.
Arguments EvalPermission {World} action scopes.
Arguments EvalAll {World} allOf.
Arguments EvalAny {World} anyOf.
Arguments range_allOf {A} eval l.
Arguments range_anyOf {A} eval l.
Arguments Evaluate {World} ValidateScope e permissions.
Arguments range_resolve {World} fn l scopes w.
Arguments range_children {World A} modify l resolved w.
Arguments ModifyScopes {World} e fn w.

(** ** Functions of the package that live in other files *)

(** [contains c s]: the byte [c] occurs in [s]. *)
Fixpoint contains (c : ascii) (s : string) : bool :=
  match s with
  | EmptyString => false
  | String b s' => Ascii.eqb b c || contains c s'
  end.

(** The number of colons of a scope. *)
Fixpoint count_colons (s : string) : nat :=
  match s with
  | EmptyString => 0
  | String b s' => (if Ascii.eqb b ":" then 1 else 0) + count_colons s'
  end.

(** [through_colon n s]: the bytes of [s] up to and including its colon
    number [n] (counting from zero), when [s] has that many. *)
Fixpoint through_colon (n : nat) (s : string) : option string :=
  match s with
  | EmptyString => None
  | String b s' =>
      if Ascii.eqb b ":" then
        match n with
        | 0 => Some (String b EmptyString)
        | S n' => option_map (String b) (through_colon n' s')
        end
      else option_map (String b) (through_colon n s')
  end.

Module SpecModel.

(** Modelled from the spec: [ValidateScope], which [match] calls and which
    is defined in another file of the package.  "A wildcard character is
    permitted only as the final character of the string": no byte before
    the last one is the wildcard. *)
Definition ValidateScope (scope : string) : bool :=
  negb (contains "*" (init_bytes scope)).

(** Modelled from the spec: [scopePrefix], which the resolver tests call
    and which is defined in another file of the package.  It "returns the
    substring through the second colon inclusive when at least two colons
    exist" and "returns the scope unchanged if it has zero or one
    colon". *)
Definition scopePrefix (scope : string) : string :=
  match through_colon 1 scope with
  | Some prefix => prefix
  | None => scope
  end.

End SpecModel.

(** ** Vocabulary of the statements *)

Section Vocabulary.

Context {World : Type}.
Variable fn : ScopeModifier World.

(** [resolved_in_order l w rs w']: called on the scopes [l] one after the
    other, starting in the world [w], the modifier returns the scopes
    [rs] without an error and leaves the world [w']. *)
Inductive resolved_in_order
  : list string -> World -> list string -> World -> Prop :=
| resolved_nil (w : World) : resolved_in_order [] w [] w
| resolved_cons (scope : string) (l : list string) (w w1 w2 : World)
    (resolved : string) (rs : list string) :
    fn scope w = ((resolved, None), w1) ->
    resolved_in_order l w1 rs w2 ->
    resolved_in_order (scope :: l) w (resolved :: rs) w2.

(** [rewritten_in_order l w l' w']: [ModifyScopes] on the evaluators [l]
    one after the other, starting in the world [w], returns the
    evaluators [l'] without an error and leaves the world [w']. *)
Inductive rewritten_in_order
  : list (Evaluator World) -> World -> list (Evaluator World) -> World
    -> Prop :=
| rewritten_nil (w : World) : rewritten_in_order [] w [] w
| rewritten_cons (e e' : Evaluator World) (l l' : list (Evaluator World))
    (w w1 w2 : World) :
    ModifyScopes e fn w = (inl e', w1) ->
    rewritten_in_order l w1 l' w2 ->
    rewritten_in_order (e :: l) w (e' :: l') w2.

(** A modifier that neither reads nor changes the world. *)
Definition stateless : Prop :=
  exists f : string -> string * option error,
    forall scope w, fn scope w = (f scope, w).

End Vocabulary.

(** [subtree path e]: the evaluator reached from [e] by following [path],
    a list of child positions, down through [EvalAll] and [EvalAny]. *)
Fixpoint subtree {World : Type} (path : list nat) (e : Evaluator World)
  : option (Evaluator World) :=
  match path with
  | [] => Some e
  | i :: path' =>
      match e with
      | allEvaluator l | anyEvaluator l =>
          match l !! i with
          | Some c => subtree path' c
          | None => None
          end
      | _ => None
      end
  end.

(** [builtin e]: [e] is built from the three evaluators of the file
    only. *)
Fixpoint builtin {World : Type} (e : Evaluator World) : bool :=
  match e with
  | permissionEvaluator _ _ => true
  | allEvaluator l | anyEvaluator l => forallb builtin l
  | externEvaluator _ _ => false
  end.

(** [scopes_of e]: the scopes of the permissions of [e], from left to
    right. *)
Fixpoint scopes_of {World : Type} (e : Evaluator World) : list string :=
  match e with
  | permissionEvaluator _ Scopes => elems Scopes
  | allEvaluator l | anyEvaluator l => List.flat_map scopes_of l
  | externEvaluator _ _ => []
  end.

(** [actions_of e]: the actions of the permissions of [e], from left to
    right. *)
Fixpoint actions_of {World : Type} (e : Evaluator World) : list string :=
  match e with
  | permissionEvaluator Action _ => [Action]
  | allEvaluator l | anyEvaluator l => List.flat_map actions_of l
  | externEvaluator _ _ => []
  end.

(** [skeleton e]: [e] with every scope blanked; what is left is the kind of
    each node, the actions, which [Scopes] are nil and how many scopes each
    permission has. *)
Fixpoint skeleton {World : Type} (e : Evaluator World) : Evaluator World :=
  match e with
  | permissionEvaluator Action Scopes =>
      permissionEvaluator Action (option_map (List.map (fun _ => "")) Scopes)
  | allEvaluator l => allEvaluator (List.map skeleton l)
  | anyEvaluator l => anyEvaluator (List.map skeleton l)
  | externEvaluator evaluate modifyScopes =>
      externEvaluator evaluate modifyScopes
  end.

Section Traces.

Context {World : Type}.
Variable fn : ScopeModifier World.

(** The calls a successful [ModifyScopes] makes, and what it returns. *)
Definition traced (e : Evaluator World) : Prop :=
  forall w e' w',
    ModifyScopes e fn w = (inl e', w') ->
    resolved_in_order fn (scopes_of e) w (scopes_of e') w'.

(** The calls a failed [ModifyScopes] makes. *)
Definition traced_error (e : Evaluator World) : Prop :=
  forall w err w',
    ModifyScopes e fn w = (inr err, w') ->
    exists pre scope post rs w1 partial,
      scopes_of e = pre ++ scope :: post
      /\ resolved_in_order fn pre w rs w1
      /\ fn scope w1 = ((partial, Some err), w').

End Traces.

(** [grants_le p p']: [p'] grants at least what [p] grants. *)
Definition grants_le (p p' : gmap string (gset string)) : Prop :=
  forall action userScopes,
    p !! action = Some userScopes ->
    exists userScopes', p' !! action = Some userScopes'
                        /\ userScopes ⊆ userScopes'.

(** The modifier that returns its argument. *)
Definition keep_scope {World : Type} : ScopeModifier World :=
  fun scope w => ((scope, None), w).

(** [then_modifier f g]: call [f], and [g] on what [f] returns unless [f]
    fails. *)
Definition then_modifier {World : Type} (f g : ScopeModifier World)
  : ScopeModifier World :=
  fun scope w =>
    match f scope w with
    | ((resolved, None), w') => g resolved w'
    | ((resolved, Some err), w') => ((resolved, Some err), w')
    end.

(** ** Values used in the examples *)

(** A child that fails to evaluate, two permissions and a grant. *)
Definition failing_child : Evaluator unit :=
  externEvaluator (fun _ => (false, Some (Err "lookup failed")))
                  (fun _ w => (inr (Err "lookup failed"), w)).

Definition users_read : Evaluator unit :=
  permissionEvaluator "users:read" None.

Definition teams_read : Evaluator unit :=
  permissionEvaluator "teams:read" None.

Definition granted_users_read : gmap string (gset string) :=
  {["users:read" := ∅]}.

(** A modifier in the manner of the data source name resolver: the world
    is the number of look-ups made so far; the name [testds] resolves to
    the id 1 and the name [missing] is not found. *)
Definition resolve_testds : ScopeModifier nat :=
  fun scope lookups =>
    if String.eqb scope "datasources:name:testds"
    then (("datasources:id:1", None), S lookups)
    else if String.eqb scope "datasources:name:missing"
    then (("", Some (Err "data source not found")), S lookups)
    else ((scope, None), S lookups).

Definition datasources_read (scopes : option (list string)) : Evaluator nat :=
  permissionEvaluator "datasources:read" scopes.

(** The same renaming as a modifier that leaves the world alone. *)
Definition rename_testds : ScopeModifier unit :=
  fun scope w =>
    (if String.eqb scope "datasources:name:testds"
     then ("datasources:id:1", None)
     else (scope, None), w).

(** * Properties *)

(** ** Strings *)

Lemma append_empty_r (s : string) : s +:+ "" = s.
Proof. induction s as [|b s IH]; simpl; [reflexivity | now rewrite IH]. Qed.

Lemma append_assoc (s1 s2 s3 : string) :
  (s1 +:+ s2) +:+ s3 = s1 +:+ (s2 +:+ s3).
Proof. induction s1 as [|b s1 IH]; simpl; [reflexivity | now rewrite IH]. Qed.

Lemma length_append (s1 s2 : string) :
  String.length (s1 +:+ s2) = String.length s1 + String.length s2.
Proof. induction s1 as [|b s1 IH]; simpl; [reflexivity | now rewrite IH]. Qed.

Lemma substring_append_l (p r : string) :
  String.substring 0 (String.length p) (p +:+ r) = p.
Proof.
  induction p as [|b p IH]; simpl.
  - destruct r; reflexivity.
  - now rewrite IH.
Qed.

Lemma substring_0_split (n : nat) (s : string) :
  n <= String.length s ->
  exists r, s = String.substring 0 n s +:+ r.
Proof.
  revert s; induction n as [|n IH]; intros s Hn.
  - exists s. destruct s; reflexivity.
  - destruct s as [|b s]; simpl in *; [lia|].
    destruct (IH s) as [r Hr]; [lia|].
    exists r. now rewrite <- Hr.
Qed.

(** [strings.HasPrefix(s, p)] holds exactly when [s] starts with [p]. *)
Lemma HasPrefix_spec (s p : string) :
  HasPrefix s p = true <-> exists r, s = p +:+ r.
Proof.
  unfold HasPrefix. rewrite andb_true_iff, Nat.leb_le, String.eqb_eq. split.
  - intros [Hlen Hsub].
    destruct (substring_0_split (String.length p) s Hlen) as [r Hr].
    exists r. now rewrite Hsub in Hr.
  - intros [r ->]. split.
    + rewrite length_append. lia.
    + apply substring_append_l.
Qed.

Lemma length_snoc (p : string) (b : ascii) :
  String.length (p +:+ String b "") - 1 = String.length p.
Proof. rewrite length_append. simpl. lia. Qed.

Lemma init_bytes_snoc (p : string) (b : ascii) :
  init_bytes (p +:+ String b "") = p.
Proof. unfold init_bytes. rewrite length_snoc. apply substring_append_l. Qed.

Lemma get_snoc (p : string) (b : ascii) :
  String.get (String.length p) (p +:+ String b "") = Some b.
Proof. induction p as [|a p IH]; simpl; [reflexivity | exact IH]. Qed.

Lemma last_byte_snoc (p : string) (b : ascii) :
  last_byte (p +:+ String b "") = Some b.
Proof. unfold last_byte. rewrite length_snoc. apply get_snoc. Qed.

(** A non-empty string is its bytes but the last, then its last byte. *)
Lemma string_snoc (s : string) :
  s <> "" -> exists p b, s = p +:+ String b "".
Proof.
  induction s as [|a s IH]; intros Hs; [congruence|].
  destruct s as [|a' s'].
  - exists "", a. reflexivity.
  - destruct IH as (p & b & Hp); [congruence|].
    exists (String a p), b. simpl. now rewrite <- Hp.
Qed.

Lemma is_star_Some (b : ascii) : is_star (Some b) = true <-> b = "*"%char.
Proof. simpl. apply Ascii.eqb_eq. Qed.

(** ** The matcher *)

Section MatcherFacts.

Variable ValidateScope : string -> bool.

Lemma match_empty (target : string) :
  match_ ValidateScope "" target = (false, None).
Proof. reflexivity. Qed.

Lemma match_invalid (scope target : string) :
  ValidateScope scope = false ->
  match_ ValidateScope scope target = (false, None).
Proof.
  intros Hv. unfold match_. rewrite Hv. simpl.
  destruct (String.eqb scope ""); reflexivity.
Qed.

(** Every path of [match] returns a nil error. *)
Lemma match_no_error (scope target : string) :
  snd (match_ ValidateScope scope target) = None.
Proof.
  unfold match_.
  repeat match goal with
         | |- context [if ?c then _ else _] => destruct c
         end; reflexivity.
Qed.

(** [match] on a valid scope [p*]. *)
Lemma match_wildcard (p target : string) :
  ValidateScope (p +:+ "*") = true ->
  match_ ValidateScope (p +:+ "*") target
  = (HasPrefix target p, None).
Proof.
  intros Hv. unfold match_. rewrite Hv. simpl negb.
  rewrite init_bytes_snoc, last_byte_snoc. simpl is_star.
  destruct (String.eqb_spec (p +:+ "*") "") as [He|_].
  { destruct p; discriminate He. }
  destruct (HasPrefix target p) eqn:Hp; [reflexivity|].
  destruct (String.eqb_spec (p +:+ "*") target) as [He|_]; [|reflexivity].
  exfalso. assert (HasPrefix target p = true) as Hp'
    by (apply HasPrefix_spec; eauto).
  congruence.
Qed.

(** [match] on a valid scope whose last byte is not the wildcard. *)
Lemma match_exact (scope target : string) :
  scope <> "" ->
  ValidateScope scope = true ->
  (forall p, scope <> p +:+ "*") ->
  match_ ValidateScope scope target = (String.eqb scope target, None).
Proof.
  intros Hne Hv Hlast. unfold match_. rewrite Hv. simpl negb.
  destruct (String.eqb_spec scope "") as [He|_]; [congruence|].
  destruct (string_snoc scope Hne) as (p & b & ->).
  rewrite last_byte_snoc.
  destruct (is_star (Some b)) eqn:Hb; [|reflexivity].
  apply is_star_Some in Hb. subst b. now destruct (Hlast p).
Qed.

End MatcherFacts.

Lemma contains_append (c : ascii) (s1 s2 : string) :
  contains c (s1 +:+ s2) = contains c s1 || contains c s2.
Proof.
  induction s1 as [|b s1 IH]; simpl; [reflexivity|].
  now rewrite IH, orb_assoc.
Qed.

(** The scopes the modelled [ValidateScope] refuses are those with a
    wildcard followed by at least one more byte. *)
Lemma ValidateScope_wildcard_inside (a b : string) :
  b <> "" -> SpecModel.ValidateScope (a +:+ "*" +:+ b) = false.
Proof.
  intros Hb. destruct (string_snoc b Hb) as (b' & c & ->).
  unfold SpecModel.ValidateScope.
  replace (a +:+ "*" +:+ b' +:+ String c "")
    with ((a +:+ "*" +:+ b') +:+ String c "")
    by now rewrite !append_assoc.
  rewrite init_bytes_snoc, !contains_append. simpl.
  now rewrite orb_true_r.
Qed.

Lemma contains_split (c : ascii) (s : string) :
  contains c s = true -> exists a b, s = a +:+ String c b.
Proof.
  induction s as [|x s IH]; simpl; [discriminate|].
  destruct (Ascii.eqb_spec x c) as [->|Hx]; simpl.
  - intros _. exists "", s. reflexivity.
  - intros Hs. destruct (IH Hs) as (a & b & ->).
    exists (String x a), b. reflexivity.
Qed.

(** The modelled [ValidateScope] accepts a scope exactly when a wildcard,
    if it has one, is its last byte. *)
Lemma ValidateScope_spec (scope : string) :
  SpecModel.ValidateScope scope = true
  <-> forall a b, scope = a +:+ "*" +:+ b -> b = "".
Proof.
  split.
  - intros Hv a b ->. destruct (String.eqb_spec b "") as [Hb|Hb]; [exact Hb|].
    rewrite (ValidateScope_wildcard_inside a b Hb) in Hv. discriminate.
  - intros Hlast. unfold SpecModel.ValidateScope.
    destruct (contains "*" (init_bytes scope)) eqn:Hc; [|reflexivity].
    exfalso. destruct (String.eqb_spec scope "") as [->|Hne]; [discriminate|].
    destruct (string_snoc scope Hne) as (p & x & ->).
    rewrite init_bytes_snoc in Hc.
    destruct (contains_split _ _ Hc) as (a & b & ->).
    specialize (Hlast a (b +:+ String x "")).
    rewrite append_assoc in Hlast. simpl in Hlast.
    specialize (Hlast eq_refl). destruct b; discriminate.
Qed.

(** ** Evaluate on a permission *)

Section EvaluateFacts.

Context {World : Type}.
Variable ValidateScope : string -> bool.

Local Abbreviation matches scope target :=
  (fst (match_ ValidateScope scope target)).

(** The inner loop never takes its error exit: it ends with [matches]
    set exactly when one of the scopes it visits matches the target. *)
Lemma range_userScopes_existsb (l : list string) (target : string) :
  range_userScopes ValidateScope l target
  = inr (existsb (fun scope => matches scope target) l).
Proof.
  induction l as [|scope l IH]; simpl; [reflexivity|].
  pose proof (match_no_error ValidateScope scope target) as Herr.
  destruct (match_ ValidateScope scope target) as [[|] [err|]];
    simpl in *; try discriminate; [reflexivity | exact IH].
Qed.

(** A Go map is ranged over in no fixed order; the loop gives the same
    answer for every order. *)
Lemma range_userScopes_order (l l' : list string) (target : string) :
  l ≡ₚ l' ->
  range_userScopes ValidateScope l target
  = range_userScopes ValidateScope l' target.
Proof.
  intros Hp. rewrite !range_userScopes_existsb. f_equal.
  apply eq_true_iff_eq. rewrite !existsb_exists.
  split; intros (x & Hx & Hm); exists x; split; try exact Hm;
    apply list_elem_of_In; apply list_elem_of_In in Hx;
    [rewrite <- Hp | rewrite Hp]; exact Hx.
Qed.

Lemma range_userScopes_true (userScopes : gset string) (target : string) :
  range_userScopes ValidateScope (elements userScopes) target = inr true
  <-> exists scope, scope ∈ userScopes /\ matches scope target = true.
Proof.
  rewrite range_userScopes_existsb. split.
  - intros [= H]. apply existsb_exists in H as (x & Hx & Hm).
    exists x. split; [|exact Hm].
    apply elem_of_elements, list_elem_of_In, Hx.
  - intros (x & Hx & Hm). f_equal. apply existsb_exists.
    exists x. split; [|exact Hm].
    apply list_elem_of_In, elem_of_elements, Hx.
Qed.

Lemma range_Scopes_no_error (userScopes : gset string)
  (targets : list string) :
  snd (range_Scopes ValidateScope userScopes targets) = None.
Proof.
  induction targets as [|target targets IH]; simpl; [reflexivity|].
  rewrite range_userScopes_existsb.
  destruct (existsb _ _); [exact IH | reflexivity].
Qed.

Lemma range_Scopes_true (userScopes : gset string) (targets : list string) :
  fst (range_Scopes ValidateScope userScopes targets) = true
  <-> forall target, target ∈ targets ->
      exists scope, scope ∈ userScopes /\ matches scope target = true.
Proof.
  induction targets as [|target targets IH]; simpl.
  - split; [|reflexivity]. intros _ t Ht. inversion Ht.
  - destruct (range_userScopes ValidateScope (elements userScopes) target)
      as [err|[|]] eqn:Hr.
    + rewrite range_userScopes_existsb in Hr. discriminate.
    + rewrite IH. apply range_userScopes_true in Hr. split.
      * intros H t Ht. apply elem_of_cons in Ht as [->|Ht]; auto.
      * intros H t Ht. apply H. now apply elem_of_cons; right.
    + split; [discriminate|]. intros H. exfalso.
      destruct (H target) as (scope & Hs & Hm); [apply elem_of_cons; now left|].
      assert (range_userScopes ValidateScope (elements userScopes) target
              = inr true) as Hr' by (apply range_userScopes_true; eauto).
      congruence.
Qed.

Lemma Evaluate_permission_no_error (Action : string)
  (Scopes : option (list string)) (permissions : gmap string (gset string)) :
  snd (Evaluate (World:=World) ValidateScope
         (permissionEvaluator Action Scopes) permissions) = None.
Proof.
  simpl. destruct (permissions !! Action) as [userScopes|]; [|reflexivity].
  destruct (Nat.eqb (len Scopes) 0); [reflexivity|].
  apply range_Scopes_no_error.
Qed.

End EvaluateFacts.

(** ** The matcher and the permission evaluator, as specified *)

(** C1.  [permissionEvaluator.Evaluate]: without an entry for the action in
    the granted permissions the result is [(false, nil)]; with an entry and
    no required scope it is [(true, nil)]; with an entry and required scopes
    it is true exactly when every required scope is matched by at least one
    of the scopes granted for the action, and the error is nil. *)
Theorem permissionEvaluator_Evaluate {World : Type}
  (ValidateScope : string -> bool) (Action : string)
  (Scopes : option (list string)) (permissions : gmap string (gset string)) :
  let p : Evaluator World := permissionEvaluator Action Scopes in
  (permissions !! Action = None ->
   Evaluate ValidateScope p permissions = (false, None))
  /\ (forall userScopes, permissions !! Action = Some userScopes ->
      (elems Scopes = [] ->
       Evaluate ValidateScope p permissions = (true, None))
      /\ (elems Scopes <> [] ->
          (fst (Evaluate ValidateScope p permissions) = true
           <-> forall target, target ∈ elems Scopes ->
               exists scope, scope ∈ userScopes
                 /\ fst (match_ ValidateScope scope target) = true)
          /\ snd (Evaluate ValidateScope p permissions) = None)).
Proof.
  simpl. split.
  - intros ->. reflexivity.
  - intros userScopes ->. unfold len. split.
    + intros ->. reflexivity.
    + intros Hne. destruct (elems Scopes) as [|t ts] eqn:Hs; [congruence|].
      cbn [length Nat.eqb]. split.
      * apply range_Scopes_true.
      * apply range_Scopes_no_error.
Qed.

Lemma permissionEvaluator_Evaluate_witness :
  Evaluate (World:=unit) SpecModel.ValidateScope
    (permissionEvaluator "users:read" None) ∅ = (false, None)
  /\ Evaluate (World:=unit) SpecModel.ValidateScope
       (permissionEvaluator "users:read" None) {["users:read" := ∅]}
     = (true, None)
  /\ snd (Evaluate (World:=unit) SpecModel.ValidateScope
            (permissionEvaluator "datasources:read" (Some ["datasources:id:1"]))
            {["datasources:read" := {["datasources:*"]}]}) = None.
Proof.
  split; [|split].
  - apply (proj1 (permissionEvaluator_Evaluate (World:=unit)
                    SpecModel.ValidateScope "users:read" None ∅)).
    reflexivity.
  - apply (proj2 (permissionEvaluator_Evaluate (World:=unit)
                    SpecModel.ValidateScope "users:read" None
                    {["users:read" := ∅]}) ∅).
    + vm_compute. reflexivity.
    + reflexivity.
  - apply (proj2 (permissionEvaluator_Evaluate (World:=unit)
                    SpecModel.ValidateScope "datasources:read"
                    (Some ["datasources:id:1"])
                    {["datasources:read" := {["datasources:*"]}]})
             {["datasources:*"]}).
    + vm_compute. reflexivity.
    + simpl. discriminate.
Defined.

(** C2.  [match] on a non-empty scope that [ValidateScope] accepts: a scope
    ending in the wildcard matches exactly the targets that start with the
    scope less its final wildcard; a scope not ending in the wildcard
    matches exactly the target equal to it. *)
Theorem match_valid_scope (ValidateScope : string -> bool)
  (scope target : string) :
  scope <> "" ->
  ValidateScope scope = true ->
  (forall p, scope = p +:+ "*" ->
     (fst (match_ ValidateScope scope target) = true
      <-> exists rest, target = p +:+ rest))
  /\ ((forall p, scope <> p +:+ "*") ->
      (fst (match_ ValidateScope scope target) = true <-> scope = target)).
Proof.
  intros Hne Hv. split.
  - intros p ->. rewrite match_wildcard by exact Hv. simpl.
    apply HasPrefix_spec.
  - intros Hlast. rewrite match_exact by assumption. simpl.
    apply String.eqb_eq.
Qed.

Lemma match_valid_scope_witness :
  (fst (match_ SpecModel.ValidateScope "datasources:*" "datasources:id:1") = true
   <-> exists rest, "datasources:id:1" = "datasources:" +:+ rest)
  /\ (fst (match_ SpecModel.ValidateScope "users:id:2" "users:id:2") = true
      <-> "users:id:2" = "users:id:2").
Proof.
  split.
  - apply (proj1 (match_valid_scope SpecModel.ValidateScope
                    "datasources:*" "datasources:id:1"
                    ltac:(discriminate) ltac:(reflexivity))
             "datasources:").
    reflexivity.
  - apply (proj2 (match_valid_scope SpecModel.ValidateScope
                    "users:id:2" "users:id:2"
                    ltac:(discriminate) ltac:(reflexivity))).
    intros p Hp.
    assert (last_byte "users:id:2" = last_byte (p +:+ "*")) as Hl
      by (rewrite Hp; reflexivity).
    rewrite last_byte_snoc in Hl. vm_compute in Hl. discriminate Hl.
Defined.

(** C3.  [match] fails closed: an empty granted scope, and a granted scope
    with a wildcard anywhere before its last position, match no target and
    give [(false, nil)]. *)
Theorem match_fail_closed (target : string) :
  match_ SpecModel.ValidateScope "" target = (false, None)
  /\ (forall a b, b <> "" ->
      match_ SpecModel.ValidateScope (a +:+ "*" +:+ b) target = (false, None)).
Proof.
  split; [apply match_empty|].
  intros a b Hb. apply match_invalid, ValidateScope_wildcard_inside, Hb.
Qed.

Lemma match_fail_closed_witness :
  match_ SpecModel.ValidateScope "data*sources:id:1" "data*sources:id:1"
  = (false, None).
Proof.
  apply (proj2 (match_fail_closed "data*sources:id:1") "data" "sources:id:1").
  discriminate.
Defined.

(** C9.  [match] returns a nil error on every path; so the inner loop of
    [permissionEvaluator.Evaluate] never leaves through its error return,
    and [Evaluate] on a permission returns a nil error for every map of
    granted permissions. *)
Theorem match_error_is_nil :
  (forall ValidateScope scope target,
     snd (match_ ValidateScope scope target) = None)
  /\ (forall ValidateScope l target err,
        range_userScopes ValidateScope l target <> inl err)
  /\ (forall (World : Type) ValidateScope Action Scopes permissions,
        snd (Evaluate (World:=World) ValidateScope
               (permissionEvaluator Action Scopes) permissions) = None).
Proof.
  split; [|split].
  - apply match_no_error.
  - intros V l target err. rewrite range_userScopes_existsb. discriminate.
  - intros. apply Evaluate_permission_no_error.
Qed.

(** ** Evaluate on the combinators *)

Section CombinatorFacts.

Context {A : Type}.
Variable eval : A -> bool * option error.

(** [allEvaluator.Evaluate] stops at the first child that is false or
    has an error, whatever follows it. *)
Lemma range_allOf_stop (pre post : list A) (e : A) (ok : bool)
  (err : option error) :
  (forall c, c ∈ pre -> eval c = (true, None)) ->
  eval e = (ok, err) ->
  ok = false \/ err <> None ->
  range_allOf eval (pre ++ e :: post) = (false, err).
Proof.
  intros Hpre He Hstop. induction pre as [|c pre IH]; simpl.
  - rewrite He. destruct Hstop as [->|Hn]; [reflexivity|].
    destruct err; [|congruence]. now rewrite orb_true_r.
  - rewrite (Hpre c) by (apply elem_of_cons; now left). simpl.
    apply IH. intros c' Hc'. apply Hpre, elem_of_cons. now right.
Qed.

Lemma range_allOf_true (l : list A) :
  range_allOf eval l = (true, None)
  <-> forall c, c ∈ l -> eval c = (true, None).
Proof.
  induction l as [|c l IH]; simpl.
  - split; [|reflexivity]. intros _ c Hc. inversion Hc.
  - destruct (eval c) as [[|] [err|]] eqn:Hc; simpl.
    + split; [discriminate|]. intros H.
      specialize (H c ltac:(apply elem_of_cons; now left)). congruence.
    + rewrite IH. split.
      * intros H c' Hc'. apply elem_of_cons in Hc' as [->|Hc']; auto.
      * intros H c' Hc'. apply H, elem_of_cons. now right.
    + split; [discriminate|]. intros H.
      specialize (H c ltac:(apply elem_of_cons; now left)). congruence.
    + split; [discriminate|]. intros H.
      specialize (H c ltac:(apply elem_of_cons; now left)). congruence.
Qed.

(** [anyEvaluator.Evaluate] stops at the first child that is true. *)
Lemma range_anyOf_true (pre post : list A) (e : A) :
  (forall c, c ∈ pre -> eval c = (false, None)) ->
  eval e = (true, None) ->
  range_anyOf eval (pre ++ e :: post) = (true, None).
Proof.
  intros Hpre He. induction pre as [|c pre IH]; simpl.
  - now rewrite He.
  - rewrite (Hpre c) by (apply elem_of_cons; now left). simpl.
    apply IH. intros c' Hc'. apply Hpre, elem_of_cons. now right.
Qed.

(** [anyEvaluator.Evaluate] stops at the first child that has an
    error. *)
Lemma range_anyOf_error (pre post : list A) (e : A) (ok : bool)
  (err : error) :
  (forall c, c ∈ pre -> eval c = (false, None)) ->
  eval e = (ok, Some err) ->
  range_anyOf eval (pre ++ e :: post) = (false, Some err).
Proof.
  intros Hpre He. induction pre as [|c pre IH]; simpl.
  - now rewrite He.
  - rewrite (Hpre c) by (apply elem_of_cons; now left). simpl.
    apply IH. intros c' Hc'. apply Hpre, elem_of_cons. now right.
Qed.

Lemma range_anyOf_false (l : list A) :
  (forall c, c ∈ l -> eval c = (false, None)) ->
  range_anyOf eval l = (false, None).
Proof.
  intros Hl. induction l as [|c l IH]; simpl; [reflexivity|].
  rewrite (Hl c) by (apply elem_of_cons; now left). simpl.
  apply IH. intros c' Hc'. apply Hl, elem_of_cons. now right.
Qed.

End CombinatorFacts.

(** C4.  [anyEvaluator.Evaluate] goes through the children in order.  With
    every child before [e] false: if [e] is true the result is
    [(true, nil)], and if [e] has an error the result is that error,
    whatever children follow [e], be they true.  If every child is false
    the result is [(false, nil)]. *)
Theorem anyEvaluator_Evaluate {World : Type} (ValidateScope : string -> bool)
  (permissions : gmap string (gset string)) (anyOf : list (Evaluator World)) :
  let eval e := Evaluate ValidateScope e permissions in
  (forall pre e post,
     anyOf = pre ++ e :: post ->
     (forall c, c ∈ pre -> eval c = (false, None)) ->
     (eval e = (true, None) -> eval (anyEvaluator anyOf) = (true, None))
     /\ (forall ok err, eval e = (ok, Some err) ->
         eval (anyEvaluator anyOf) = (false, Some err)))
  /\ ((forall c, c ∈ anyOf -> eval c = (false, None)) ->
      eval (anyEvaluator anyOf) = (false, None)).
Proof.
  intros eval. split.
  - intros pre e post -> Hpre. split.
    + intros He. apply (range_anyOf_true eval); assumption.
    + intros ok err He. apply (range_anyOf_error eval _ _ _ ok); assumption.
  - intros Hall. apply (range_anyOf_false eval), Hall.
Qed.

Lemma anyEvaluator_Evaluate_witness :
  Evaluate SpecModel.ValidateScope
    (anyEvaluator [teams_read; users_read; failing_child]) granted_users_read
  = (true, None)
  /\ Evaluate SpecModel.ValidateScope
       (anyEvaluator [teams_read; failing_child; users_read]) granted_users_read
     = (false, Some (Err "lookup failed"))
  /\ Evaluate SpecModel.ValidateScope
       (anyEvaluator [teams_read; teams_read]) granted_users_read
     = (false, None).
Proof.
  split; [|split].
  - apply (proj1 (proj1 (anyEvaluator_Evaluate SpecModel.ValidateScope
             granted_users_read [teams_read; users_read; failing_child])
             [teams_read] users_read [failing_child] eq_refl
             ltac:(intros c Hc; apply list_elem_of_singleton in Hc as ->;
                   vm_compute; reflexivity))).
    vm_compute. reflexivity.
  - apply (proj2 (proj1 (anyEvaluator_Evaluate SpecModel.ValidateScope
             granted_users_read [teams_read; failing_child; users_read])
             [teams_read] failing_child [users_read] eq_refl
             ltac:(intros c Hc; apply list_elem_of_singleton in Hc as ->;
                   vm_compute; reflexivity)) false).
    reflexivity.
  - apply (proj2 (anyEvaluator_Evaluate SpecModel.ValidateScope
             granted_users_read [teams_read; teams_read])).
    intros c Hc. repeat (apply elem_of_cons in Hc as [->|Hc]);
      [vm_compute; reflexivity ..|inversion Hc].
Defined.

(** C5.  [allEvaluator.Evaluate] goes through the children in order.  With
    every child before [e] true: if [e] is false or has an error, the
    result is [(false, err)] with the error [e] returned (nil when [e] is
    merely false), whatever children follow [e].  The result is
    [(true, nil)] exactly when every child is true without error. *)
Theorem allEvaluator_Evaluate {World : Type} (ValidateScope : string -> bool)
  (permissions : gmap string (gset string)) (allOf : list (Evaluator World)) :
  let eval e := Evaluate ValidateScope e permissions in
  (forall pre e post ok err,
     allOf = pre ++ e :: post ->
     (forall c, c ∈ pre -> eval c = (true, None)) ->
     eval e = (ok, err) ->
     ok = false \/ err <> None ->
     eval (allEvaluator allOf) = (false, err))
  /\ (eval (allEvaluator allOf) = (true, None)
      <-> forall c, c ∈ allOf -> eval c = (true, None)).
Proof.
  intros eval. split.
  - intros pre e post ok err -> Hpre He Hstop.
    apply (range_allOf_stop eval _ _ _ ok); assumption.
  - apply (range_allOf_true eval).
Qed.

Lemma allEvaluator_Evaluate_witness :
  Evaluate SpecModel.ValidateScope
    (allEvaluator [users_read; teams_read; failing_child]) granted_users_read
  = (false, None)
  /\ Evaluate SpecModel.ValidateScope
       (allEvaluator [users_read; failing_child; teams_read]) granted_users_read
     = (false, Some (Err "lookup failed")).
Proof.
  split.
  - apply (proj1 (allEvaluator_Evaluate SpecModel.ValidateScope
             granted_users_read [users_read; teams_read; failing_child])
             [users_read] teams_read [failing_child] false None eq_refl).
    + intros c Hc. apply list_elem_of_singleton in Hc as ->.
      vm_compute. reflexivity.
    + vm_compute. reflexivity.
    + left. reflexivity.
  - apply (proj1 (allEvaluator_Evaluate SpecModel.ValidateScope
             granted_users_read [users_read; failing_child; teams_read])
             [users_read] failing_child [teams_read] false
             (Some (Err "lookup failed")) eq_refl).
    + intros c Hc. apply list_elem_of_singleton in Hc as ->.
      vm_compute. reflexivity.
    + reflexivity.
    + right. discriminate.
Defined.

(** C10.  Without children, [allEvaluator.Evaluate] is [(true, nil)] and
    [anyEvaluator.Evaluate] is [(false, nil)], for every map of granted
    permissions. *)
Theorem Evaluate_no_children {World : Type} (ValidateScope : string -> bool)
  (permissions : gmap string (gset string)) :
  Evaluate (World:=World) ValidateScope (allEvaluator []) permissions
  = (true, None)
  /\ Evaluate (World:=World) ValidateScope (anyEvaluator []) permissions
     = (false, None).
Proof. split; reflexivity. Qed.

(** ** ModifyScopes *)

Section ModifyScopesFacts.

Context {World : Type}.
Variable fn : ScopeModifier World.

Lemma range_resolve_ok (l rs acc : list string) (w w' : World) :
  resolved_in_order fn l w rs w' ->
  range_resolve fn l acc w = (inl (acc ++ rs), w').
Proof.
  intros H. revert acc.
  induction H as [w|scope l w w1 w2 resolved rs Hfn _ IH]; intros acc; simpl.
  - now rewrite app_nil_r.
  - rewrite Hfn, IH, <- app_assoc. reflexivity.
Qed.

Lemma range_resolve_fail (pre post rs acc : list string) (scope partial : string)
  (err : error) (w w1 w2 : World) :
  resolved_in_order fn pre w rs w1 ->
  fn scope w1 = ((partial, Some err), w2) ->
  range_resolve fn (pre ++ scope :: post) acc w = (inr err, w2).
Proof.
  intros H Hfail. revert acc.
  induction H as [w|s l w w1 w3 resolved rs Hfn _ IH]; intros acc; simpl.
  - now rewrite Hfail.
  - rewrite Hfn. apply IH, Hfail.
Qed.

(** Either every call succeeds, or there is a first one that fails. *)
Lemma resolved_or_failed (l : list string) (w : World) :
  (exists rs w', resolved_in_order fn l w rs w')
  \/ (exists pre scope post rs w1 partial err w2,
        l = pre ++ scope :: post
        /\ resolved_in_order fn pre w rs w1
        /\ fn scope w1 = ((partial, Some err), w2)).
Proof.
  revert w. induction l as [|scope l IH]; intros w.
  - left. exists [], w. constructor.
  - destruct (fn scope w) as [[resolved [err|]] w1] eqn:Hfn.
    + right. exists [], scope, l, [], w, resolved, err, w1.
      repeat split; [constructor | exact Hfn].
    + destruct (IH w1) as [(rs & w' & Hok)
        |(pre & s & post & rs & wa & partial & err & wb & -> & Hpre & Hs)].
      * left. exists (resolved :: rs), w'. econstructor; eassumption.
      * right. exists (scope :: pre), s, post, (resolved :: rs), wa, partial,
          err, wb.
        repeat split; [econstructor; eassumption | exact Hs].
Qed.

Lemma range_children_ok (l l' acc : list (Evaluator World)) (w w' : World) :
  rewritten_in_order fn l w l' w' ->
  range_children (fun e => ModifyScopes e fn) l acc w
  = (inl (acc ++ l'), w').
Proof.
  intros H. revert acc.
  induction H as [w|e e' l l' w w1 w2 He _ IH]; intros acc; simpl.
  - now rewrite app_nil_r.
  - rewrite He, IH, <- app_assoc. reflexivity.
Qed.

Lemma range_children_fail (pre post pre' acc : list (Evaluator World))
  (e : Evaluator World) (err : error) (w w1 w2 : World) :
  rewritten_in_order fn pre w pre' w1 ->
  ModifyScopes e fn w1 = (inr err, w2) ->
  range_children (fun e => ModifyScopes e fn) (pre ++ e :: post) acc w
  = (inr err, w2).
Proof.
  intros H Hfail. revert acc.
  induction H as [w|c c' l l' w w1 w3 Hc _ IH]; intros acc; simpl.
  - now rewrite Hfail.
  - rewrite Hc. apply IH, Hfail.
Qed.

Lemma rewritten_or_failed (l : list (Evaluator World)) (w : World) :
  (exists l' w', rewritten_in_order fn l w l' w')
  \/ (exists pre e post pre' w1 err w2,
        l = pre ++ e :: post
        /\ rewritten_in_order fn pre w pre' w1
        /\ ModifyScopes e fn w1 = (inr err, w2)).
Proof.
  revert w. induction l as [|e l IH]; intros w.
  - left. exists [], w. constructor.
  - destruct (ModifyScopes e fn w) as [[e'|err] w1] eqn:He.
    + destruct (IH w1) as [(l' & w' & Hok)
        |(pre & c & post & pre' & wa & err & wb & -> & Hpre & Hc)].
      * left. exists (e' :: l'), w'. econstructor; eassumption.
      * right. exists (e :: pre), c, post, (e' :: pre'), wa, err, wb.
        repeat split; [econstructor; eassumption | exact Hc].
    + right. exists [], e, l, [], w, err, w1.
      repeat split; [constructor | exact He].
Qed.

(** What a successful run of the children's loop returns. *)
Lemma range_children_inv (l acc out : list (Evaluator World)) (w w' : World) :
  range_children (fun e => ModifyScopes e fn) l acc w = (inl out, w') ->
  exists l', out = acc ++ l' /\ rewritten_in_order fn l w l' w'.
Proof.
  intros Hrun.
  destruct (rewritten_or_failed l w) as [(l' & w1 & Hok)
    |(pre & e & post & pre' & w1 & err & w2 & -> & Hpre & He)].
  - rewrite (range_children_ok _ _ acc _ _ Hok) in Hrun.
    injection Hrun as <- <-. eauto.
  - rewrite (range_children_fail _ post _ acc _ _ _ _ _ Hpre He) in Hrun.
    discriminate.
Qed.

Lemma rewritten_lookup (l l' : list (Evaluator World)) (w w' : World)
  (i : nat) (c : Evaluator World) :
  rewritten_in_order fn l w l' w' ->
  l !! i = Some c ->
  exists c' w1 w2,
    l' !! i = Some c' /\ ModifyScopes c fn w1 = (inl c', w2).
Proof.
  intros H. revert i.
  induction H as [w|e e' l l' w w1 w2 He _ IH]; intros i Hi.
  - discriminate.
  - destruct i as [|i]; simpl in *.
    + injection Hi as <-. eauto.
    + apply IH, Hi.
Qed.

Lemma rewritten_length (l l' : list (Evaluator World)) (w w' : World) :
  rewritten_in_order fn l w l' w' -> length l' = length l.
Proof. induction 1; simpl; congruence. Qed.

Lemma ModifyScopes_all_inv (l : list (Evaluator World)) (w w' : World)
  (e' : Evaluator World) :
  ModifyScopes (allEvaluator l) fn w = (inl e', w') ->
  exists l', e' = allEvaluator l' /\ rewritten_in_order fn l w l' w'.
Proof.
  simpl.
  destruct (range_children _ l [] w) as [[out|err] w1] eqn:Hrun;
    [|discriminate].
  intros [= <- <-]. apply range_children_inv in Hrun as (l' & -> & Hl').
  exists l'. split; [reflexivity | exact Hl'].
Qed.

Lemma ModifyScopes_any_inv (l : list (Evaluator World)) (w w' : World)
  (e' : Evaluator World) :
  ModifyScopes (anyEvaluator l) fn w = (inl e', w') ->
  exists l', e' = anyEvaluator l' /\ rewritten_in_order fn l w l' w'.
Proof.
  simpl.
  destruct (range_children _ l [] w) as [[out|err] w1] eqn:Hrun;
    [|discriminate].
  intros [= <- <-]. apply range_children_inv in Hrun as (l' & -> & Hl').
  exists l'. split; [reflexivity | exact Hl'].
Qed.

(** Rewriting reaches every evaluator below [EvalAll] and [EvalAny]. *)
Lemma ModifyScopes_subtree (path : list nat) (e e' s : Evaluator World)
  (w w' : World) :
  ModifyScopes e fn w = (inl e', w') ->
  subtree path e = Some s ->
  exists s' w1 w2,
    subtree path e' = Some s' /\ ModifyScopes s fn w1 = (inl s', w2).
Proof.
  revert e e' w w'. induction path as [|i path IH]; intros e e' w w' He Hs.
  - injection Hs as <-. exists e', w, w'. split; [reflexivity | exact He].
  - destruct e as [Action Scopes|l|l|ev ms]; simpl in Hs; try discriminate.
    + destruct (l !! i) as [c|] eqn:Hi; [|discriminate].
      apply ModifyScopes_all_inv in He as (l' & -> & Hl').
      destruct (rewritten_lookup _ _ _ _ _ _ Hl' Hi)
        as (c' & w1 & w2 & Hi' & Hc).
      destruct (IH _ _ _ _ Hc Hs) as (s' & wa & wb & Hs' & Hrun).
      exists s', wa, wb. simpl. rewrite Hi'. split; assumption.
    + destruct (l !! i) as [c|] eqn:Hi; [|discriminate].
      apply ModifyScopes_any_inv in He as (l' & -> & Hl').
      destruct (rewritten_lookup _ _ _ _ _ _ Hl' Hi)
        as (c' & w1 & w2 & Hi' & Hc).
      destruct (IH _ _ _ _ Hc Hs) as (s' & wa & wb & Hs' & Hrun).
      exists s', wa, wb. simpl. rewrite Hi'. split; assumption.
Qed.

(** With a stateless modifier the loop over the scopes of a permission
    gives the same result in every world and leaves the world alone. *)
Lemma range_resolve_stateless (l acc : list string) (w w0 : World) :
  stateless fn ->
  range_resolve fn l acc w0 = (fst (range_resolve fn l acc w), w0).
Proof.
  intros [f Hf]. revert acc.
  induction l as [|scope l IH]; intros acc; simpl; [reflexivity|].
  rewrite !Hf. destruct (f scope) as [resolved [err|]]; [reflexivity|].
  apply IH.
Qed.

Lemma ModifyScopes_permission_stateless (Action : string)
  (Scopes : option (list string)) (w w' w0 : World)
  (r : Evaluator World + error) :
  stateless fn ->
  ModifyScopes (permissionEvaluator Action Scopes) fn w = (r, w') ->
  ModifyScopes (permissionEvaluator Action Scopes) fn w0 = (r, w0).
Proof.
  intros Hst. simpl. destruct Scopes as [l|].
  - rewrite (range_resolve_stateless l [] w w0 Hst).
    destruct (range_resolve fn l [] w) as [[scopes|err] w1]; simpl;
      intros [= <- _]; reflexivity.
  - intros [= <- _]. reflexivity.
Qed.

End ModifyScopesFacts.

(** C6.  [permissionEvaluator.ModifyScopes]: with nil [Scopes] the result is
    a permission with the same action and nil scopes, and the modifier is
    not called (the world is as it was).  Otherwise the modifier is called
    on the scopes in order and the result is a permission with the same
    action and the returned scopes in the same order; at the first call
    that fails the error of that call is the result, no evaluator is
    returned and no further call is made.  One of the two happens. *)
Theorem permissionEvaluator_ModifyScopes {World : Type}
  (fn : ScopeModifier World) (Action : string) (w : World) :
  ModifyScopes (permissionEvaluator Action None) fn w
  = (inl (permissionEvaluator Action None), w)
  /\ (forall l rs w',
        resolved_in_order fn l w rs w' ->
        ModifyScopes (permissionEvaluator Action (Some l)) fn w
        = (inl (permissionEvaluator Action (Some rs)), w'))
  /\ (forall pre scope post rs w1 partial err w2,
        resolved_in_order fn pre w rs w1 ->
        fn scope w1 = ((partial, Some err), w2) ->
        ModifyScopes (permissionEvaluator Action (Some (pre ++ scope :: post)))
          fn w
        = (inr err, w2))
  /\ (forall l,
        (exists rs w', resolved_in_order fn l w rs w')
        \/ (exists pre scope post rs w1 partial err w2,
              l = pre ++ scope :: post
              /\ resolved_in_order fn pre w rs w1
              /\ fn scope w1 = ((partial, Some err), w2))).
Proof.
  split; [reflexivity|]. split; [|split].
  - intros l rs w' H. simpl. now rewrite (range_resolve_ok fn l rs [] w w' H).
  - intros pre scope post rs w1 partial err w2 Hpre Hfail. simpl.
    now rewrite (range_resolve_fail fn pre post rs [] scope partial err
                   w w1 w2 Hpre Hfail).
  - intros l. apply resolved_or_failed.
Qed.

Lemma permissionEvaluator_ModifyScopes_witness :
  ModifyScopes
    (datasources_read (Some ["datasources:name:testds"; "datasources:id:7"]))
    resolve_testds 0
  = (inl (datasources_read (Some ["datasources:id:1"; "datasources:id:7"])), 2)
  /\ ModifyScopes
       (datasources_read (Some ["datasources:name:testds";
                                "datasources:name:missing";
                                "datasources:name:testds"]))
       resolve_testds 0
     = (inr (Err "data source not found"), 2).
Proof.
  split.
  - apply (proj1 (proj2 (permissionEvaluator_ModifyScopes resolve_testds
                           "datasources:read" 0))).
    eapply resolved_cons; [reflexivity|].
    eapply resolved_cons; [reflexivity|].
    apply resolved_nil.
  - apply (proj1 (proj2 (proj2 (permissionEvaluator_ModifyScopes resolve_testds
                                  "datasources:read" 0)))
             ["datasources:name:testds"] "datasources:name:missing"
             ["datasources:name:testds"] ["datasources:id:1"] 1 "").
    + eapply resolved_cons; [reflexivity|]. apply resolved_nil.
    + reflexivity.
Defined.

(** C7.  [allEvaluator.ModifyScopes] and [anyEvaluator.ModifyScopes] call
    [ModifyScopes] on the children in order and return an evaluator of the
    same kind over the rewritten children in the same order; at the first
    child that fails, the error of that child is the result.  One of the
    two happens.  Hence in a rewritten tree every evaluator below
    [EvalAll] and [EvalAny] of the original, at whatever depth, has been
    replaced at its place by its own [ModifyScopes]; for a stateless
    modifier a nested permission is rewritten to what [ModifyScopes] gives
    for that permission alone. *)
Theorem combinator_ModifyScopes {World : Type} (fn : ScopeModifier World) :
  (forall l w l' w',
     rewritten_in_order fn l w l' w' ->
     ModifyScopes (allEvaluator l) fn w = (inl (allEvaluator l'), w')
     /\ ModifyScopes (anyEvaluator l) fn w = (inl (anyEvaluator l'), w'))
  /\ (forall pre e post w pre' w1 err w2,
        rewritten_in_order fn pre w pre' w1 ->
        ModifyScopes e fn w1 = (inr err, w2) ->
        ModifyScopes (allEvaluator (pre ++ e :: post)) fn w = (inr err, w2)
        /\ ModifyScopes (anyEvaluator (pre ++ e :: post)) fn w = (inr err, w2))
  /\ (forall l w,
        (exists l' w', rewritten_in_order fn l w l' w')
        \/ (exists pre e post pre' w1 err w2,
              l = pre ++ e :: post
              /\ rewritten_in_order fn pre w pre' w1
              /\ ModifyScopes e fn w1 = (inr err, w2)))
  /\ (forall e w e' w' path s,
        ModifyScopes e fn w = (inl e', w') ->
        subtree path e = Some s ->
        exists s' w1 w2,
          subtree path e' = Some s' /\ ModifyScopes s fn w1 = (inl s', w2))
  /\ (stateless fn ->
      forall e w e' w' path Action Scopes,
        ModifyScopes e fn w = (inl e', w') ->
        subtree path e = Some (permissionEvaluator Action Scopes) ->
        exists s',
          subtree path e' = Some s'
          /\ forall w0,
               ModifyScopes (permissionEvaluator Action Scopes) fn w0
               = (inl s', w0)).
Proof.
  split; [|split; [|split; [|split]]].
  - intros l w l' w' H. simpl.
    rewrite (range_children_ok fn l l' [] w w' H). split; reflexivity.
  - intros pre e post w pre' w1 err w2 Hpre He. simpl.
    rewrite (range_children_fail fn pre post pre' [] e err w w1 w2 Hpre He).
    split; reflexivity.
  - apply rewritten_or_failed.
  - intros e w e' w' path s He Hs. eapply ModifyScopes_subtree; eassumption.
  - intros Hst e w e' w' path Action Scopes He Hs.
    destruct (ModifyScopes_subtree fn path e e' _ w w' He Hs)
      as (s' & w1 & w2 & Hs' & Hrun).
    exists s'. split; [exact Hs'|]. intros w0.
    eapply ModifyScopes_permission_stateless; eassumption.
Qed.

Lemma combinator_ModifyScopes_witness :
  let name := datasources_read (Some ["datasources:name:testds"]) in
  let id := datasources_read (Some ["datasources:id:1"]) in
  ModifyScopes (allEvaluator [name; anyEvaluator [name; name]]) resolve_testds 0
  = (inl (allEvaluator [id; anyEvaluator [id; id]]), 3)
  /\ ModifyScopes
       (anyEvaluator [name;
                      datasources_read (Some ["datasources:name:missing"]);
                      name])
       resolve_testds 0
     = (inr (Err "data source not found"), 2)
  /\ (exists s' w1 w2,
        subtree [1; 0] (allEvaluator [id; anyEvaluator [id; id]]) = Some s'
        /\ ModifyScopes name resolve_testds w1 = (inl s', w2))
  /\ (exists s',
        subtree [0; 1]
          (anyEvaluator
             [allEvaluator
                [users_read;
                 permissionEvaluator "datasources:read"
                   (Some ["datasources:id:1"])]])
        = Some s'
        /\ forall w0,
             ModifyScopes
               (permissionEvaluator "datasources:read"
                  (Some ["datasources:name:testds"]))
               rename_testds w0
             = (inl s', w0)).
Proof.
  intros name id. split; [|split; [|split]].
  - apply (proj1 (proj1 (combinator_ModifyScopes resolve_testds)
                    [name; anyEvaluator [name; name]] 0
                    [id; anyEvaluator [id; id]] 3
                    ltac:(eapply rewritten_cons; [reflexivity|];
                          eapply rewritten_cons; [reflexivity|];
                          apply rewritten_nil))).
  - apply (proj2 (proj1 (proj2 (combinator_ModifyScopes resolve_testds))
                    [name] (datasources_read (Some ["datasources:name:missing"]))
                    [name] 0 [id] 1 (Err "data source not found") 2
                    ltac:(eapply rewritten_cons; [reflexivity|];
                          apply rewritten_nil)
                    ltac:(reflexivity))).
  - apply (proj1 (proj2 (proj2 (proj2 (combinator_ModifyScopes resolve_testds))))
             (allEvaluator [name; anyEvaluator [name; name]]) 0
             (allEvaluator [id; anyEvaluator [id; id]]) 3 [1; 0] name).
    + reflexivity.
    + reflexivity.
  - apply (proj2 (proj2 (proj2 (proj2 (combinator_ModifyScopes rename_testds))))
             ltac:(exists (fun scope =>
                             if String.eqb scope "datasources:name:testds"
                             then ("datasources:id:1", None)
                             else (scope, None));
                   intros scope w; reflexivity)
             (anyEvaluator
                [allEvaluator
                   [users_read;
                    permissionEvaluator "datasources:read"
                      (Some ["datasources:name:testds"])]])
             tt _ tt [0; 1] "datasources:read"
             (Some ["datasources:name:testds"])).
    + reflexivity.
    + reflexivity.
Defined.

(** ** The prefix of a scope *)

Lemma through_colon_none (n : nat) (s : string) :
  count_colons s <= n -> through_colon n s = None.
Proof.
  revert n. induction s as [|b s IH]; intros n Hn; simpl in *; [reflexivity|].
  destruct (Ascii.eqb b ":").
  - destruct n as [|n]; [lia|]. rewrite IH by lia. reflexivity.
  - rewrite IH by lia. reflexivity.
Qed.

Lemma through_colon_first (s : string) :
  1 <= count_colons s ->
  exists a rest,
    s = a +:+ ":" +:+ rest /\ count_colons a = 0
    /\ through_colon 0 s = Some (a +:+ ":").
Proof.
  induction s as [|b s IH]; intros Hn; simpl in *; [lia|].
  destruct (Ascii.eqb_spec b ":") as [->|Hb].
  - exists "", s. repeat split.
  - destruct IH as (a & rest & -> & Ha & Hp); [lia|].
    exists (String b a), rest. rewrite Hp. simpl.
    destruct (Ascii.eqb_spec b ":"); [congruence|]. repeat split. exact Ha.
Qed.

Lemma through_colon_second (s : string) :
  2 <= count_colons s ->
  exists a b rest,
    s = a +:+ ":" +:+ b +:+ ":" +:+ rest
    /\ count_colons a = 0 /\ count_colons b = 0
    /\ through_colon 1 s = Some (a +:+ ":" +:+ b +:+ ":").
Proof.
  induction s as [|c s IH]; intros Hn; simpl in *; [lia|].
  destruct (Ascii.eqb_spec c ":") as [->|Hc].
  - destruct (through_colon_first s) as (b & rest & -> & Hb & Hp); [lia|].
    exists "", b, rest. rewrite Hp. simpl. repeat split. exact Hb.
  - destruct IH as (a & b & rest & -> & Ha & Hb & Hp); [lia|].
    exists (String c a), b, rest. rewrite Hp. simpl.
    destruct (Ascii.eqb_spec c ":"); [congruence|]. repeat split; assumption.
Qed.

(** C8.  [scopePrefix] of a scope with at least two colons is the scope up
    to and including its second colon; a scope with no colon or one colon
    is returned as it is; and the four cases of [Test_scopePrefix]. *)
Theorem scopePrefix_spec :
  (forall scope,
     2 <= count_colons scope ->
     exists a b rest,
       scope = a +:+ ":" +:+ b +:+ ":" +:+ rest
       /\ count_colons a = 0 /\ count_colons b = 0
       /\ SpecModel.scopePrefix scope = a +:+ ":" +:+ b +:+ ":")
  /\ (forall scope,
        count_colons scope <= 1 -> SpecModel.scopePrefix scope = scope)
  /\ SpecModel.scopePrefix "" = ""
  /\ SpecModel.scopePrefix ":" = ":"
  /\ SpecModel.scopePrefix "datasources:" = "datasources:"
  /\ SpecModel.scopePrefix "datasources:name:testds" = "datasources:name:".
Proof.
  split; [|split; [|repeat split]].
  - intros scope Hn.
    destruct (through_colon_second scope Hn)
      as (a & b & rest & Hs & Ha & Hb & Hp).
    exists a, b, rest. unfold SpecModel.scopePrefix. rewrite Hp.
    repeat split; assumption.
  - intros scope Hn. unfold SpecModel.scopePrefix.
    now rewrite through_colon_none.
Qed.

Lemma scopePrefix_spec_witness :
  (exists a b rest,
     "datasources:name:testds:x" = a +:+ ":" +:+ b +:+ ":" +:+ rest
     /\ count_colons a = 0 /\ count_colons b = 0
     /\ SpecModel.scopePrefix "datasources:name:testds:x" = a +:+ ":" +:+ b +:+ ":")
  /\ SpecModel.scopePrefix "datasources:name" = "datasources:name".
Proof.
  split.
  - apply (proj1 scopePrefix_spec "datasources:name:testds:x").
    vm_compute. lia.
  - apply (proj1 (proj2 scopePrefix_spec) "datasources:name").
    vm_compute. lia.
Defined.

(** ** The examples of the specification, by evaluation *)

Example match_prefix_is_not_segment_aware :
  match_ SpecModel.ValidateScope "datasources:*" "datasources:anything"
  = (true, None).
Proof. vm_compute. reflexivity. Qed.

Example match_exact_only :
  match_ SpecModel.ValidateScope "datasources:id:1" "datasources:id:10"
  = (false, None).
Proof. vm_compute. reflexivity. Qed.

Example Evaluate_action_granted :
  Evaluate SpecModel.ValidateScope users_read granted_users_read = (true, None).
Proof. vm_compute. reflexivity. Qed.

Example Evaluate_action_not_granted :
  Evaluate SpecModel.ValidateScope users_read ∅ = (false, None).
Proof. vm_compute. reflexivity. Qed.

Example Evaluate_every_scope_required :
  Evaluate SpecModel.ValidateScope
    (datasources_read (Some ["datasources:id:1"; "datasources:id:2"]))
    {["datasources:read" := {["datasources:id:1"; "users:*"]}]}
  = (false, None).
Proof. vm_compute. reflexivity. Qed.

Example Evaluate_any_granted_scope_suffices :
  Evaluate SpecModel.ValidateScope
    (datasources_read (Some ["datasources:id:1"; "datasources:id:2"]))
    {["datasources:read" := {["datasources:id:1"; "datasources:*"]}]}
  = (true, None).
Proof. vm_compute. reflexivity. Qed.

Example ModifyScopes_nested :
  let name := datasources_read (Some ["datasources:name:testds"]) in
  let id := datasources_read (Some ["datasources:id:1"]) in
  fst (ModifyScopes (EvalAll [name; EvalAny [name; name]]) resolve_testds 0)
  = inl (EvalAll [id; EvalAny [id; id]]).
Proof. reflexivity. Qed.

(** * Further properties of the evaluators *)

(** ** The matcher *)

Lemma snoc_inj (p q : string) (b c : ascii) :
  p +:+ String b "" = q +:+ String c "" -> p = q /\ b = c.
Proof.
  intros H. split.
  - rewrite <- (init_bytes_snoc p b), <- (init_bytes_snoc q c). now rewrite H.
  - assert (Some b = Some c) as [= ->]; [|reflexivity].
    rewrite <- (last_byte_snoc p b), <- (last_byte_snoc q c). now rewrite H.
Qed.

Lemma match_true_cases (ValidateScope : string -> bool)
  (scope target : string) :
  fst (match_ ValidateScope scope target) = true
  <-> scope <> ""
      /\ ValidateScope scope = true
      /\ (scope = target
          \/ exists p rest, scope = p +:+ "*" /\ target = p +:+ rest).
Proof.
  destruct (String.eqb_spec scope "") as [->|Hne].
  { rewrite match_empty. simpl. split; [discriminate|]. now intros [? _]. }
  destruct (ValidateScope scope) eqn:Hv.
  2:{ rewrite match_invalid by exact Hv. simpl.
      split; [discriminate|]. now intros (_ & ? & _). }
  destruct (string_snoc scope Hne) as (p & b & Hs).
  destruct (Ascii.eqb_spec b "*") as [->|Hb].
  - subst scope. rewrite match_wildcard by exact Hv. simpl.
    rewrite HasPrefix_spec. split.
    + intros [rest ->]. repeat split; [exact Hne|]. right. eauto.
    + intros (_ & _ & [<-|(q & rest & Hq & ->)]).
      * exists "*". reflexivity.
      * apply snoc_inj in Hq as [-> _]. eauto.
  - assert (forall q, scope <> q +:+ "*") as Hlast.
    { intros q Hq. rewrite Hs in Hq. apply snoc_inj in Hq as [_ ->].
      now apply Hb. }
    rewrite match_exact by assumption. simpl. rewrite String.eqb_eq. split.
    + intros ->. repeat split; [exact Hne|]. now left.
    + intros (_ & _ & [H|(q & rest & Hq & _)]); [exact H|].
      now destruct (Hlast q).
Qed.

(** X1.  [match] is true exactly when the granted scope is not empty,
    [ValidateScope] accepts it, and either it is the target or it is [p*]
    and the target starts with [p]. *)
Theorem match_true_iff (ValidateScope : string -> bool)
  (scope target : string) :
  fst (match_ ValidateScope scope target) = true
  <-> scope <> ""
      /\ ValidateScope scope = true
      /\ (scope = target
          \/ exists p rest, scope = p +:+ "*" /\ target = p +:+ rest).
Proof. apply match_true_cases. Qed.

(** X2.  A granted scope with no wildcard before its last byte that matches
    a scope [t] also matches every target that [t], taken as a granted
    scope, matches. *)
Theorem match_trans (ValidateScope : string -> bool) (g t u : string) :
  contains "*" (init_bytes g) = false ->
  fst (match_ ValidateScope g t) = true ->
  fst (match_ ValidateScope t u) = true ->
  fst (match_ ValidateScope g u) = true.
Proof.
  intros Hg Hgt Htu.
  apply match_true_cases in Hgt as (Hne & Hv & Hgt).
  apply match_true_cases in Htu as (_ & _ & Htu).
  apply match_true_cases. repeat split; [exact Hne | exact Hv |].
  destruct Hgt as [<-|(p & r & -> & ->)]; [exact Htu|].
  right. exists p.
  destruct Htu as [<-|(q & r' & Hq & ->)]; [eauto|].
  destruct (String.eqb_spec r "") as [->|Hr].
  - rewrite append_empty_r in Hq. subst p.
    rewrite init_bytes_snoc, contains_append in Hg. simpl in Hg.
    rewrite orb_true_r in Hg. discriminate.
  - destruct (string_snoc r Hr) as (r0 & b & ->).
    rewrite <- append_assoc in Hq. apply snoc_inj in Hq as [<- _].
    exists (r0 +:+ r'). split; [reflexivity|]. now rewrite append_assoc.
Qed.

Lemma match_trans_witness :
  fst (match_ SpecModel.ValidateScope "datasources:*" "datasources:id:1") = true.
Proof.
  apply (match_trans SpecModel.ValidateScope
           "datasources:*" "datasources:id:*" "datasources:id:1");
    vm_compute; reflexivity.
Defined.

(** X3.  The inner loop of [permissionEvaluator.Evaluate] gives the same
    result for every order in which the granted scopes are visited, with or
    without repetitions: the order Go picks for a map does not show. *)
Theorem range_userScopes_any_order (ValidateScope : string -> bool)
  (l l' : list string) (target : string) :
  (forall scope, scope ∈ l <-> scope ∈ l') ->
  range_userScopes ValidateScope l target
  = range_userScopes ValidateScope l' target.
Proof.
  intros Hsame. rewrite !range_userScopes_existsb. f_equal.
  apply eq_true_iff_eq. rewrite !existsb_exists.
  split; intros (x & Hx & Hm); exists x; (split; [|exact Hm]);
    apply list_elem_of_In, Hsame, list_elem_of_In, Hx.
Qed.

Lemma range_userScopes_any_order_witness :
  range_userScopes SpecModel.ValidateScope
    ["users:id:1"; "users:*"] "users:id:2"
  = range_userScopes SpecModel.ValidateScope
      ["users:*"; "users:id:1"; "users:*"] "users:id:2".
Proof.
  apply (range_userScopes_any_order SpecModel.ValidateScope).
  intros scope. rewrite !elem_of_cons. tauto.
Defined.

(** ** Evaluate *)

(** Induction over an evaluator and, below [EvalAll] and [EvalAny], over
    its children. *)
Lemma Evaluator_children_ind {World : Type} (P : Evaluator World -> Prop) :
  (forall Action Scopes, P (permissionEvaluator Action Scopes)) ->
  (forall l, Forall P l -> P (allEvaluator l)) ->
  (forall l, Forall P l -> P (anyEvaluator l)) ->
  (forall evaluate modifyScopes, P (externEvaluator evaluate modifyScopes)) ->
  forall e, P e.
Proof.
  intros Hperm Hall Hany Hext. fix IH 1.
  intros [Action Scopes|l|l|evaluate modifyScopes].
  - apply Hperm.
  - apply Hall. induction l as [|c l IHl]; constructor; [apply IH | exact IHl].
  - apply Hany. induction l as [|c l IHl]; constructor; [apply IH | exact IHl].
  - apply Hext.
Qed.

Section LoopFacts.

Context {A : Type}.
Variable eval : A -> bool * option error.

(** Without errors the two loops are a conjunction and a disjunction. *)
Lemma range_allOf_forallb (l : list A) :
  (forall c, c ∈ l -> snd (eval c) = None) ->
  range_allOf eval l = (forallb (fun c => fst (eval c)) l, None).
Proof.
  induction l as [|c l IH]; intros Hl; simpl; [reflexivity|].
  pose proof (Hl c ltac:(apply elem_of_cons; now left)) as Hc.
  destruct (eval c) as [[|] [err|]]; simpl in *; try discriminate;
    [|reflexivity].
  apply IH. intros c' Hc'. apply Hl, elem_of_cons. now right.
Qed.

Lemma range_anyOf_existsb (l : list A) :
  (forall c, c ∈ l -> snd (eval c) = None) ->
  range_anyOf eval l = (existsb (fun c => fst (eval c)) l, None).
Proof.
  induction l as [|c l IH]; intros Hl; simpl; [reflexivity|].
  pose proof (Hl c ltac:(apply elem_of_cons; now left)) as Hc.
  destruct (eval c) as [[|] [err|]]; simpl in *; try discriminate;
    [reflexivity|].
  apply IH. intros c' Hc'. apply Hl, elem_of_cons. now right.
Qed.

(** What the loops return, whatever the children return. *)
Lemma range_allOf_cases (l : list A) :
  range_allOf eval l = (true, None)
  \/ exists err, range_allOf eval l = (false, err).
Proof.
  induction l as [|c l IH]; simpl; [now left|].
  destruct (eval c) as [[|] [err|]]; simpl; eauto.
Qed.

Lemma range_anyOf_cases (l : list A) :
  range_anyOf eval l = (true, None)
  \/ exists err, range_anyOf eval l = (false, err).
Proof.
  induction l as [|c l IH]; simpl; [right; eauto|].
  destruct (eval c) as [[|] [err|]]; simpl; eauto.
Qed.

Lemma range_allOf_app (l1 l2 : list A) :
  range_allOf eval (l1 ++ l2)
  = match range_allOf eval l1 with
    | (true, None) => range_allOf eval l2
    | r => r
    end.
Proof.
  induction l1 as [|c l1 IH]; simpl; [reflexivity|].
  destruct (eval c) as [[|] [err|]]; simpl; try reflexivity. exact IH.
Qed.

Lemma range_anyOf_app (l1 l2 : list A) :
  range_anyOf eval (l1 ++ l2)
  = match range_anyOf eval l1 with
    | (false, None) => range_anyOf eval l2
    | r => r
    end.
Proof.
  induction l1 as [|c l1 IH]; simpl; [reflexivity|].
  destruct (eval c) as [[|] [err|]]; simpl; try reflexivity. exact IH.
Qed.

End LoopFacts.

Lemma forallb_Permutation {A : Type} (f : A -> bool) (l l' : list A) :
  l ≡ₚ l' -> forallb f l = forallb f l'.
Proof.
  induction 1 as [|x l l' _ IH|x y l|l l' l'' _ IH1 _ IH2]; simpl.
  - reflexivity.
  - now rewrite IH.
  - destruct (f x), (f y); reflexivity.
  - now rewrite IH1.
Qed.

Lemma existsb_Permutation {A : Type} (f : A -> bool) (l l' : list A) :
  l ≡ₚ l' -> existsb f l = existsb f l'.
Proof.
  induction 1 as [|x l l' _ IH|x y l|l l' l'' _ IH1 _ IH2]; simpl.
  - reflexivity.
  - now rewrite IH.
  - destruct (f x), (f y); reflexivity.
  - now rewrite IH1.
Qed.

Lemma builtin_no_error {World : Type}
  (ValidateScope : string -> bool) (e : Evaluator World)
  (permissions : gmap string (gset string)) :
  builtin e = true ->
  snd (Evaluate ValidateScope e permissions) = None.
Proof.
  induction e as [Action Scopes|l IH|l IH|evaluate modifyScopes]
    using Evaluator_children_ind; intros Hb; simpl in Hb.
  - apply Evaluate_permission_no_error.
  - simpl. rewrite range_allOf_forallb; [reflexivity|].
    intros c Hc. rewrite Forall_forall in IH. apply IH; [exact Hc|].
    rewrite forallb_forall in Hb. apply Hb, list_elem_of_In, Hc.
  - simpl. rewrite range_anyOf_existsb; [reflexivity|].
    intros c Hc. rewrite Forall_forall in IH. apply IH; [exact Hc|].
    rewrite forallb_forall in Hb. apply Hb, list_elem_of_In, Hc.
  - discriminate.
Qed.

(** X4.  An evaluator built from [EvalPermission], [EvalAll] and [EvalAny]
    only never returns an error from [Evaluate]. *)
Theorem Evaluate_builtin_no_error {World : Type}
  (ValidateScope : string -> bool) (e : Evaluator World)
  (permissions : gmap string (gset string)) :
  builtin e = true ->
  snd (Evaluate ValidateScope e permissions) = None.
Proof. apply builtin_no_error. Qed.

Lemma Evaluate_builtin_no_error_witness :
  snd (Evaluate SpecModel.ValidateScope
         (allEvaluator [users_read; anyEvaluator [teams_read; users_read]])
         granted_users_read) = None.
Proof.
  apply (Evaluate_builtin_no_error SpecModel.ValidateScope). reflexivity.
Defined.

(** X5.  When no child returns an error, the result of [EvalAll] and of
    [EvalAny] does not depend on the order of the children: stopping at the
    first decisive child only saves work. *)
Theorem Evaluate_children_order {World : Type}
  (ValidateScope : string -> bool) (l l' : list (Evaluator World))
  (permissions : gmap string (gset string)) :
  (forall c, c ∈ l -> snd (Evaluate ValidateScope c permissions) = None) ->
  l ≡ₚ l' ->
  Evaluate ValidateScope (allEvaluator l) permissions
  = Evaluate ValidateScope (allEvaluator l') permissions
  /\ Evaluate ValidateScope (anyEvaluator l) permissions
     = Evaluate ValidateScope (anyEvaluator l') permissions.
Proof.
  intros Hl Hp.
  assert (forall c, c ∈ l' -> snd (Evaluate ValidateScope c permissions) = None)
    as Hl' by (intros c Hc; apply Hl; now rewrite Hp).
  simpl. rewrite !range_allOf_forallb, !range_anyOf_existsb by assumption.
  now rewrite (forallb_Permutation _ _ _ Hp), (existsb_Permutation _ _ _ Hp).
Qed.

Lemma Evaluate_children_order_witness :
  Evaluate SpecModel.ValidateScope
    (allEvaluator [users_read; teams_read]) granted_users_read
  = Evaluate SpecModel.ValidateScope
      (allEvaluator [teams_read; users_read]) granted_users_read
  /\ Evaluate SpecModel.ValidateScope
       (anyEvaluator [users_read; teams_read]) granted_users_read
     = Evaluate SpecModel.ValidateScope
         (anyEvaluator [teams_read; users_read]) granted_users_read.
Proof.
  apply (Evaluate_children_order SpecModel.ValidateScope
           [users_read; teams_read] [teams_read; users_read]
           granted_users_read).
  - intros c Hc. repeat (apply elem_of_cons in Hc as [->|Hc]);
      [vm_compute; reflexivity ..|inversion Hc].
  - apply perm_swap.
Defined.

Lemma builtin_children {World : Type} (l : list (Evaluator World))
  (c : Evaluator World) :
  forallb builtin l = true -> c ∈ l -> builtin c = true.
Proof.
  intros Hb Hc. rewrite forallb_forall in Hb. apply Hb, list_elem_of_In, Hc.
Qed.

(** X6.  Granting more never takes access away: if an evaluator built from
    the three evaluators of the file is true for some granted permissions,
    it is true for every map that grants at least as much. *)
Theorem Evaluate_grants_monotone {World : Type}
  (ValidateScope : string -> bool) (e : Evaluator World)
  (p p' : gmap string (gset string)) :
  grants_le p p' ->
  builtin e = true ->
  fst (Evaluate ValidateScope e p) = true ->
  fst (Evaluate ValidateScope e p') = true.
Proof.
  intros Hle.
  induction e as [Action Scopes|l IH|l IH|evaluate modifyScopes]
    using Evaluator_children_ind; intros Hb; simpl in Hb.
  - simpl. destruct (p !! Action) as [us|] eqn:Hp; [|discriminate].
    destruct (Hle _ _ Hp) as (us' & -> & Hsub).
    destruct (Nat.eqb (len Scopes) 0); [reflexivity|].
    rewrite !range_Scopes_true. intros H target Ht.
    destruct (H target Ht) as (scope & Hs & Hm). exists scope. split;
      [apply Hsub, Hs | exact Hm].
  - simpl. rewrite !range_allOf_forallb
      by (intros c Hc; apply builtin_no_error, (builtin_children l c Hb Hc)).
    simpl. rewrite !forallb_forall. intros H c Hc.
    rewrite Forall_forall in IH.
    apply IH; [apply list_elem_of_In, Hc | | apply H, Hc].
    apply (builtin_children l c Hb), list_elem_of_In, Hc.
  - simpl. rewrite !range_anyOf_existsb
      by (intros c Hc; apply builtin_no_error, (builtin_children l c Hb Hc)).
    simpl. rewrite !existsb_exists. intros (c & Hc & H). exists c.
    split; [exact Hc|]. rewrite Forall_forall in IH.
    apply IH; [apply list_elem_of_In, Hc | | exact H].
    apply (builtin_children l c Hb), list_elem_of_In, Hc.
  - discriminate.
Qed.

Lemma Evaluate_grants_monotone_witness :
  fst (Evaluate SpecModel.ValidateScope
         (anyEvaluator [teams_read; users_read])
         {["users:read" := {["users:*"]}; "teams:read" := ∅]}) = true.
Proof.
  apply (Evaluate_grants_monotone SpecModel.ValidateScope
           (anyEvaluator [teams_read; users_read]) granted_users_read).
  - intros action us Hus. unfold granted_users_read in Hus.
    apply lookup_singleton_Some in Hus as [<- <-].
    exists {["users:*"]}. split; [vm_compute; reflexivity | set_solver].
  - reflexivity.
  - vm_compute. reflexivity.
Defined.

(** X7.  Requiring the scopes [l1 ++ l2] in one permission is requiring
    [l1] and [l2] in two permissions for the same action under
    [EvalAll]. *)
Theorem Evaluate_scopes_app {World : Type} (ValidateScope : string -> bool)
  (Action : string) (l1 l2 : list string)
  (permissions : gmap string (gset string)) :
  Evaluate (World:=World) ValidateScope
    (EvalPermission Action (Some (l1 ++ l2))) permissions
  = Evaluate (World:=World) ValidateScope
      (EvalAll [EvalPermission Action (Some l1);
                EvalPermission Action (Some l2)]) permissions.
Proof.
  assert (forall us l,
            (if Nat.eqb (length l) 0 then (true, None)
             else range_Scopes ValidateScope us l)
            = range_Scopes ValidateScope us l) as Hlen
    by (intros us [|t l]; reflexivity).
  simpl. unfold len. simpl.
  destruct (permissions !! Action) as [us|]; [|reflexivity].
  rewrite !Hlen.
  induction l1 as [|t l1 IH]; simpl.
  - pose proof (range_Scopes_no_error ValidateScope us l2) as Herr.
    destruct (range_Scopes ValidateScope us l2) as [[|] [err|]];
      simpl in *; try discriminate; reflexivity.
  - rewrite range_userScopes_existsb.
    destruct (existsb _ (elements us)); [exact IH | reflexivity].
Qed.

(** X8.  An [EvalAll] among the children of an [EvalAll], and an [EvalAny]
    among the children of an [EvalAny], can be replaced by its own
    children, whatever the children return. *)
Theorem Evaluate_flatten {World : Type} (ValidateScope : string -> bool)
  (pre l post : list (Evaluator World))
  (permissions : gmap string (gset string)) :
  Evaluate ValidateScope (allEvaluator (pre ++ allEvaluator l :: post))
    permissions
  = Evaluate ValidateScope (allEvaluator (pre ++ l ++ post)) permissions
  /\ Evaluate ValidateScope (anyEvaluator (pre ++ anyEvaluator l :: post))
       permissions
     = Evaluate ValidateScope (anyEvaluator (pre ++ l ++ post)) permissions.
Proof.
  simpl. split.
  - rewrite !range_allOf_app. simpl.
    destruct (range_allOf _ pre) as [[|] [err|]]; try reflexivity.
    destruct (range_allOf_cases (fun e' => Evaluate ValidateScope e' permissions) l)
      as [->|[err ->]]; [reflexivity|].
    simpl. now destruct err.
  - rewrite !range_anyOf_app. simpl.
    destruct (range_anyOf _ pre) as [[|] [err|]]; try reflexivity.
    destruct (range_anyOf_cases (fun e' => Evaluate ValidateScope e' permissions) l)
      as [->|[err ->]]; [reflexivity|].
    simpl. now destruct err.
Qed.

(** ** ModifyScopes over a whole evaluator *)

Section TreeFacts.

Context {World : Type}.
Variable fn : ScopeModifier World.

Lemma resolved_app (l1 l2 r1 r2 : list string) (w w1 w2 : World) :
  resolved_in_order fn l1 w r1 w1 ->
  resolved_in_order fn l2 w1 r2 w2 ->
  resolved_in_order fn (l1 ++ l2) w (r1 ++ r2) w2.
Proof.
  induction 1 as [w|scope l w wa wb resolved rs Hfn _ IH]; intros H2; simpl.
  - exact H2.
  - econstructor; [exact Hfn | apply IH, H2].
Qed.

Lemma resolved_length (l rs : list string) (w w' : World) :
  resolved_in_order fn l w rs w' -> length rs = length l.
Proof. induction 1; simpl; congruence. Qed.

Lemma range_resolve_inv (l rs : list string) (w w' : World) :
  range_resolve fn l [] w = (inl rs, w') -> resolved_in_order fn l w rs w'.
Proof.
  intros Hrun.
  destruct (resolved_or_failed fn l w) as [(rs' & w1 & Hok)
    |(pre & s & post & rs' & w1 & partial & err & w2 & -> & Hpre & Hs)].
  - rewrite (range_resolve_ok fn _ _ [] _ _ Hok) in Hrun.
    injection Hrun as <- <-. exact Hok.
  - rewrite (range_resolve_fail fn _ post _ [] _ _ _ _ _ _ Hpre Hs) in Hrun.
    discriminate.
Qed.

Lemma range_resolve_inv_error (l : list string) (err : error) (w w' : World) :
  range_resolve fn l [] w = (inr err, w') ->
  exists pre scope post rs w1 partial,
    l = pre ++ scope :: post
    /\ resolved_in_order fn pre w rs w1
    /\ fn scope w1 = ((partial, Some err), w').
Proof.
  intros Hrun.
  destruct (resolved_or_failed fn l w) as [(rs' & w1 & Hok)
    |(pre & s & post & rs' & w1 & partial & err' & w2 & -> & Hpre & Hs)].
  - rewrite (range_resolve_ok fn _ _ [] _ _ Hok) in Hrun. discriminate.
  - rewrite (range_resolve_fail fn _ post _ [] _ _ _ _ _ _ Hpre Hs) in Hrun.
    injection Hrun as <- <-. exists pre, s, post, rs', w1, partial. auto.
Qed.

Lemma range_children_inv_error (l : list (Evaluator World)) (err : error)
  (w w' : World) :
  range_children (fun e => ModifyScopes e fn) l [] w = (inr err, w') ->
  exists pre e post pre' w1,
    l = pre ++ e :: post
    /\ rewritten_in_order fn pre w pre' w1
    /\ ModifyScopes e fn w1 = (inr err, w').
Proof.
  intros Hrun.
  destruct (rewritten_or_failed fn l w) as [(l' & w1 & Hok)
    |(pre & e & post & pre' & w1 & err' & w2 & -> & Hpre & He)].
  - rewrite (range_children_ok fn _ _ [] _ _ Hok) in Hrun. discriminate.
  - rewrite (range_children_fail fn _ post _ [] _ _ _ _ _ Hpre He) in Hrun.
    injection Hrun as <- <-. exists pre, e, post, pre', w1. auto.
Qed.

Lemma rewritten_traced (l l' : list (Evaluator World)) (w w' : World) :
  Forall (traced fn) l ->
  rewritten_in_order fn l w l' w' ->
  resolved_in_order fn (List.flat_map scopes_of l) w
    (List.flat_map scopes_of l') w'.
Proof.
  intros Hl H. induction H as [w|e e' l l' w w1 w2 He _ IH]; simpl.
  - constructor.
  - inversion Hl as [|? ? Htr Hl']; subst.
    eapply resolved_app; [apply Htr, He | apply IH, Hl'].
Qed.

Lemma children_traced_error (l : list (Evaluator World)) (err : error)
  (w w' : World) :
  Forall (traced fn) l ->
  Forall (traced_error fn) l ->
  range_children (fun e => ModifyScopes e fn) l [] w = (inr err, w') ->
  exists pre scope post rs w1 partial,
    List.flat_map scopes_of l = pre ++ scope :: post
    /\ resolved_in_order fn pre w rs w1
    /\ fn scope w1 = ((partial, Some err), w').
Proof.
  intros Hok Herr Hrun.
  apply range_children_inv_error in Hrun
    as (cs & c & post & cs' & w1 & -> & Hcs & Hc).
  apply Forall_app in Hok as [Hok _].
  apply Forall_app in Herr as [_ Herr].
  inversion Herr as [|? ? Hce _]; subst.
  destruct (Hce _ _ _ Hc) as (pre & scope & post' & rs & w2 & partial
                               & Hsc & Hpre & Hfail).
  exists (List.flat_map scopes_of cs ++ pre), scope,
    (post' ++ List.flat_map scopes_of post),
    (List.flat_map scopes_of cs' ++ rs), w2, partial.
  split; [|split; [|exact Hfail]].
  - rewrite List.flat_map_app. simpl. rewrite Hsc, <- !app_assoc. reflexivity.
  - eapply resolved_app; [|exact Hpre]. apply rewritten_traced; assumption.
Qed.

Lemma builtin_traced (e : Evaluator World) :
  builtin e = true -> (traced fn) e /\ (traced_error fn) e.
Proof.
  induction e as [Action Scopes|l IH|l IH|evaluate modifyScopes]
    using Evaluator_children_ind; intros Hb; simpl in Hb; [| | |discriminate].
  - split; intros w r w'; simpl; destruct Scopes as [l|]; simpl.
    + destruct (range_resolve fn l [] w) as [[rs|err] w1] eqn:Hrun;
        intros [= <- <-]. simpl. apply range_resolve_inv, Hrun.
    + intros [= <- <-]. constructor.
    + destruct (range_resolve fn l [] w) as [[rs|err] w1] eqn:Hrun;
        intros [= <- <-]. apply range_resolve_inv_error, Hrun.
    + discriminate.
  - assert (Forall (traced fn) l /\ Forall (traced_error fn) l) as [Hok Herr].
    { rewrite !Forall_forall in *. split; intros c Hc;
        apply IH; try exact Hc; apply (builtin_children l c Hb Hc). }
    split; intros w r w' Hrun.
    + apply ModifyScopes_all_inv in Hrun as (l' & -> & Hl').
      simpl. apply rewritten_traced; assumption.
    + simpl in Hrun.
      destruct (range_children _ l [] w) as [[out|err] w1] eqn:Hch;
        [discriminate|].
      injection Hrun as -> ->.
      apply (children_traced_error l r w w' Hok Herr Hch).
  - assert (Forall (traced fn) l /\ Forall (traced_error fn) l) as [Hok Herr].
    { rewrite !Forall_forall in *. split; intros c Hc;
        apply IH; try exact Hc; apply (builtin_children l c Hb Hc). }
    split; intros w r w' Hrun.
    + apply ModifyScopes_any_inv in Hrun as (l' & -> & Hl').
      simpl. apply rewritten_traced; assumption.
    + simpl in Hrun.
      destruct (range_children _ l [] w) as [[out|err] w1] eqn:Hch;
        [discriminate|].
      injection Hrun as -> ->.
      apply (children_traced_error l r w w' Hok Herr Hch).
Qed.

End TreeFacts.

(** X9.  On an evaluator built from the three evaluators of the file,
    [ModifyScopes] calls the modifier once on each scope, from left to right
    through the whole tree, each call in the world the one before left.  If
    it returns an evaluator, every call succeeded and the scopes of the
    result are what the calls returned, in the same order.  If it returns
    an error, that error is the one of the first call that failed, and the
    world is as that call left it. *)
Theorem ModifyScopes_calls {World : Type} (fn : ScopeModifier World)
  (e : Evaluator World) (w : World) :
  builtin e = true ->
  (forall e' w',
     ModifyScopes e fn w = (inl e', w') ->
     resolved_in_order fn (scopes_of e) w (scopes_of e') w')
  /\ (forall err w',
        ModifyScopes e fn w = (inr err, w') ->
        exists pre scope post rs w1 partial,
          scopes_of e = pre ++ scope :: post
          /\ resolved_in_order fn pre w rs w1
          /\ fn scope w1 = ((partial, Some err), w')).
Proof.
  intros Hb. destruct (builtin_traced fn e Hb) as [Hok Herr].
  split; [intros e' w'; apply Hok | intros err w'; apply Herr].
Qed.

Lemma ModifyScopes_calls_witness :
  resolved_in_order resolve_testds
    ["datasources:name:testds"; "datasources:name:testds"] 0
    ["datasources:id:1"; "datasources:id:1"] 2
  /\ exists pre scope post rs w1 partial,
       ["datasources:name:testds"; "datasources:name:missing";
        "datasources:name:testds"] = pre ++ scope :: post
       /\ resolved_in_order resolve_testds pre 0 rs w1
       /\ resolve_testds scope w1
          = ((partial, Some (Err "data source not found")), 2).
Proof.
  split.
  - apply (proj1 (ModifyScopes_calls resolve_testds
                    (allEvaluator
                       [datasources_read (Some ["datasources:name:testds"]);
                        anyEvaluator
                          [datasources_read None;
                           datasources_read (Some ["datasources:name:testds"])]])
                    0 ltac:(reflexivity))
             (allEvaluator
                [datasources_read (Some ["datasources:id:1"]);
                 anyEvaluator
                   [datasources_read None;
                    datasources_read (Some ["datasources:id:1"])]])
             2).
    reflexivity.
  - apply (proj2 (ModifyScopes_calls resolve_testds
                    (allEvaluator
                       [datasources_read (Some ["datasources:name:testds"]);
                        anyEvaluator
                          [datasources_read (Some ["datasources:name:missing"]);
                           datasources_read (Some ["datasources:name:testds"])]])
                    0 ltac:(reflexivity))
             (Err "data source not found") 2).
    reflexivity.
Defined.

(** X10.  With a modifier that never fails, [ModifyScopes] returns an
    evaluator for every evaluator built from the three evaluators of the
    file: it has no error of its own. *)
Theorem ModifyScopes_no_own_error {World : Type} (fn : ScopeModifier World)
  (e : Evaluator World) (w : World) :
  (forall scope w0, snd (fst (fn scope w0)) = None) ->
  builtin e = true ->
  exists e' w', ModifyScopes e fn w = (inl e', w').
Proof.
  intros Hfn Hb. destruct (ModifyScopes e fn w) as [[e'|err] w'] eqn:Hrun.
  - eauto.
  - destruct (builtin_traced fn e Hb) as [_ Herr].
    destruct (Herr _ _ _ Hrun) as (pre & scope & post & rs & w1 & partial
                                   & _ & _ & Hfail).
    specialize (Hfn scope w1). rewrite Hfail in Hfn. discriminate.
Qed.

Lemma ModifyScopes_no_own_error_witness :
  exists e' w',
    ModifyScopes (anyEvaluator [users_read; allEvaluator [teams_read]])
      rename_testds tt
    = (inl e', w').
Proof.
  apply (ModifyScopes_no_own_error rename_testds).
  - intros scope w0. unfold rename_testds.
    destruct (String.eqb scope "datasources:name:testds"); reflexivity.
  - reflexivity.
Defined.

Section ShapeFacts.

Context {World : Type}.
Variable fn : ScopeModifier World.

Lemma blank_length (l l' : list string) :
  length l' = length l ->
  List.map (fun _ => "") l' = List.map (fun _ : string => "") l.
Proof.
  revert l'. induction l as [|x l IH]; intros [|x' l'] Hlen; simpl in *;
    try discriminate; [reflexivity|].
  f_equal. apply IH. lia.
Qed.

Lemma rewritten_skeleton (l l' : list (Evaluator World)) (w w' : World) :
  Forall (fun c => forall w c' w',
            ModifyScopes c fn w = (inl c', w') ->
            skeleton c' = skeleton c /\ builtin c' = true) l ->
  rewritten_in_order fn l w l' w' ->
  List.map skeleton l' = List.map skeleton l /\ forallb builtin l' = true.
Proof.
  intros Hl H. induction H as [w|e e' l l' w w1 w2 He _ IH]; simpl.
  - split; reflexivity.
  - inversion Hl as [|? ? Hc Hl']; subst.
    destruct (Hc _ _ _ He) as [-> ->]. destruct (IH Hl') as [-> ->].
    split; reflexivity.
Qed.

Lemma builtin_skeleton (e : Evaluator World) :
  builtin e = true ->
  forall w e' w',
    ModifyScopes e fn w = (inl e', w') ->
    skeleton e' = skeleton e /\ builtin e' = true.
Proof.
  induction e as [Action Scopes|l IH|l IH|evaluate modifyScopes]
    using Evaluator_children_ind; intros Hb w e' w' Hrun; simpl in Hb;
    [| | |discriminate].
  - simpl in Hrun. destruct Scopes as [l|].
    + destruct (range_resolve fn l [] w) as [[rs|err] w1] eqn:Hres;
        [|discriminate].
      injection Hrun as <- <-. apply range_resolve_inv in Hres.
      simpl. rewrite (blank_length l rs (resolved_length fn _ _ _ _ Hres)).
      split; reflexivity.
    + injection Hrun as <- <-. split; reflexivity.
  - apply ModifyScopes_all_inv in Hrun as (l' & -> & Hl').
    destruct (rewritten_skeleton l l' w w') as [Hs Hb']; [|exact Hl'|].
    + rewrite Forall_forall in *. intros c Hc. apply IH; [exact Hc|].
      apply (builtin_children l c Hb Hc).
    + simpl. rewrite Hs. split; [reflexivity | exact Hb'].
  - apply ModifyScopes_any_inv in Hrun as (l' & -> & Hl').
    destruct (rewritten_skeleton l l' w w') as [Hs Hb']; [|exact Hl'|].
    + rewrite Forall_forall in *. intros c Hc. apply IH; [exact Hc|].
      apply (builtin_children l c Hb Hc).
    + simpl. rewrite Hs. split; [reflexivity | exact Hb'].
Qed.

End ShapeFacts.

(** X11.  [ModifyScopes] changes scopes and nothing else: on an evaluator
    built from the three evaluators of the file, the result has the same
    tree of [EvalAll] and [EvalAny], the same actions, nil scopes where the
    original has nil scopes and as many scopes in each permission, and is
    again built from the three evaluators only. *)
Theorem ModifyScopes_skeleton {World : Type} (fn : ScopeModifier World)
  (e e' : Evaluator World) (w w' : World) :
  builtin e = true ->
  ModifyScopes e fn w = (inl e', w') ->
  skeleton e' = skeleton e /\ builtin e' = true.
Proof. intros Hb Hrun. eapply builtin_skeleton; eassumption. Qed.

Lemma ModifyScopes_skeleton_witness :
  let name := datasources_read (Some ["datasources:name:testds"]) in
  let id := datasources_read (Some ["datasources:id:1"]) in
  skeleton (allEvaluator [id; anyEvaluator [datasources_read None; id]])
  = skeleton (allEvaluator [name; anyEvaluator [datasources_read None; name]])
  /\ builtin (allEvaluator [id; anyEvaluator [datasources_read None; id]])
     = true.
Proof.
  intros name id.
  apply (ModifyScopes_skeleton resolve_testds
           (allEvaluator [name; anyEvaluator [datasources_read None; name]])
           (allEvaluator [id; anyEvaluator [datasources_read None; id]]) 0 2);
    reflexivity.
Defined.

Section IdentityFacts.

Context {World : Type}.

Lemma range_resolve_keep (l acc : list string) (w : World) :
  range_resolve keep_scope l acc w = (inl (acc ++ l), w).
Proof.
  revert acc. induction l as [|scope l IH]; intros acc; simpl.
  - now rewrite app_nil_r.
  - rewrite IH, <- app_assoc. reflexivity.
Qed.

Lemma range_children_keep (l acc : list (Evaluator World)) (w : World) :
  Forall (fun c => forall w, ModifyScopes c keep_scope w = (inl c, w)) l ->
  range_children (fun e => ModifyScopes e keep_scope) l acc w
  = (inl (acc ++ l), w).
Proof.
  intros Hl. revert acc. induction Hl as [|c l Hc _ IH]; intros acc; simpl.
  - now rewrite app_nil_r.
  - rewrite Hc, IH, <- app_assoc. reflexivity.
Qed.

Lemma builtin_keep (e : Evaluator World) :
  builtin e = true -> forall w, ModifyScopes e keep_scope w = (inl e, w).
Proof.
  induction e as [Action Scopes|l IH|l IH|evaluate modifyScopes]
    using Evaluator_children_ind; intros Hb w; simpl in Hb;
    [| | |discriminate].
  - simpl. destruct Scopes as [l|]; [|reflexivity].
    now rewrite range_resolve_keep.
  - simpl. rewrite range_children_keep; [reflexivity|].
    rewrite Forall_forall in *. intros c Hc. apply IH; [exact Hc|].
    apply (builtin_children l c Hb Hc).
  - simpl. rewrite range_children_keep; [reflexivity|].
    rewrite Forall_forall in *. intros c Hc. apply IH; [exact Hc|].
    apply (builtin_children l c Hb Hc).
Qed.

End IdentityFacts.

(** X12.  With the modifier that returns every scope as it is,
    [ModifyScopes] returns an evaluator equal to its receiver, for every
    evaluator built from the three evaluators of the file. *)
Theorem ModifyScopes_keep_scope {World : Type} (e : Evaluator World)
  (w : World) :
  builtin e = true ->
  ModifyScopes e keep_scope w = (inl e, w).
Proof. intros Hb. apply builtin_keep, Hb. Qed.

Lemma ModifyScopes_keep_scope_witness :
  let e := allEvaluator
             [datasources_read (Some ["datasources:id:1"; "datasources:*"]);
              anyEvaluator [datasources_read None; datasources_read (Some [])]]
  in ModifyScopes e keep_scope 0 = (inl e, 0).
Proof.
  intros e. apply (ModifyScopes_keep_scope e 0). reflexivity.
Defined.

Section CompositionFacts.

Context {World : Type}.
Variables f g : ScopeModifier World.
Hypothesis f_stateless : stateless f.

Lemma resolve_then (l rs : list string) (w w1 : World) :
  resolved_in_order f l w rs w1 ->
  forall acc w0,
    range_resolve (then_modifier f g) l acc w0 = range_resolve g rs acc w0.
Proof.
  destruct f_stateless as [f0 Hf].
  induction 1 as [w|scope l w wa wb resolved rs Hfn _ IH]; intros acc w0;
    simpl; [reflexivity|].
  unfold then_modifier at 1. rewrite Hf in Hfn. rewrite Hf.
  injection Hfn as -> _.
  destruct (g resolved w0) as [[resolved' [err|]] w']; [reflexivity|].
  apply IH.
Qed.

Lemma children_then (l l1 : list (Evaluator World)) (w w1 : World) :
  Forall (fun c => forall w c1 w1,
            ModifyScopes c f w = (inl c1, w1) ->
            forall w0,
              ModifyScopes c (then_modifier f g) w0 = ModifyScopes c1 g w0) l ->
  rewritten_in_order f l w l1 w1 ->
  forall acc w0,
    range_children (fun e => ModifyScopes e (then_modifier f g)) l acc w0
    = range_children (fun e => ModifyScopes e g) l1 acc w0.
Proof.
  intros Hl H. induction H as [w|e e' l l' w wa wb He _ IH]; intros acc w0;
    simpl; [reflexivity|].
  inversion Hl as [|? ? Hc Hl']; subst.
  rewrite (Hc _ _ _ He w0).
  destruct (ModifyScopes e' g w0) as [[i|err] w']; [|reflexivity].
  apply IH, Hl'.
Qed.

Lemma builtin_then (e : Evaluator World) :
  builtin e = true ->
  forall w e1 w1,
    ModifyScopes e f w = (inl e1, w1) ->
    forall w0, ModifyScopes e (then_modifier f g) w0 = ModifyScopes e1 g w0.
Proof.
  induction e as [Action Scopes|l IH|l IH|evaluate modifyScopes]
    using Evaluator_children_ind; intros Hb w e1 w1 Hrun w0; simpl in Hb;
    [| | |discriminate].
  - simpl in Hrun. destruct Scopes as [l|].
    + destruct (range_resolve f l [] w) as [[rs|err] wa] eqn:Hres;
        [|discriminate].
      injection Hrun as <- <-. apply range_resolve_inv in Hres.
      simpl. now rewrite (resolve_then l rs w wa Hres).
    + injection Hrun as <- <-. reflexivity.
  - apply ModifyScopes_all_inv in Hrun as (l1 & -> & Hl1).
    simpl. rewrite (children_then l l1 w w1); [reflexivity | | exact Hl1].
    rewrite Forall_forall in *. intros c Hc. apply IH; [exact Hc|].
    apply (builtin_children l c Hb Hc).
  - apply ModifyScopes_any_inv in Hrun as (l1 & -> & Hl1).
    simpl. rewrite (children_then l l1 w w1); [reflexivity | | exact Hl1].
    rewrite Forall_forall in *. intros c Hc. apply IH; [exact Hc|].
    apply (builtin_children l c Hb Hc).
Qed.

End CompositionFacts.

(** X13.  Rewriting twice is rewriting once with the two modifiers in
    sequence: when [ModifyScopes] with a stateless modifier [f] returns
    [e1], [ModifyScopes] on [e1] with [g] returns, error or not, what
    [ModifyScopes] on the original returns with the modifier that calls [f]
    and then [g] on each scope. *)
Theorem ModifyScopes_then {World : Type} (f g : ScopeModifier World)
  (e e1 : Evaluator World) (w w1 : World) :
  stateless f ->
  builtin e = true ->
  ModifyScopes e f w = (inl e1, w1) ->
  ModifyScopes e (then_modifier f g) w = ModifyScopes e1 g w.
Proof.
  intros Hf Hb Hrun. eapply builtin_then; eassumption.
Qed.

Lemma ModifyScopes_then_witness :
  let self := permissionEvaluator (World:=unit) "datasources:read"
                (Some ["datasources:name:testds"; "datasources:name:testds*"]) in
  let e1 := permissionEvaluator (World:=unit) "datasources:read"
              (Some ["datasources:id:1"; "datasources:name:testds*"]) in
  ModifyScopes (allEvaluator [self]) (then_modifier rename_testds keep_scope) tt
  = ModifyScopes (allEvaluator [e1]) keep_scope tt.
Proof.
  intros self e1.
  apply (ModifyScopes_then rename_testds keep_scope
           (allEvaluator [self]) (allEvaluator [e1]) tt tt).
  - exists (fun scope =>
              if String.eqb scope "datasources:name:testds"
              then ("datasources:id:1", None)
              else (scope, None)).
    intros scope w. reflexivity.
  - reflexivity.
  - reflexivity.
Defined.

(** ** What Evaluate reads of the granted permissions *)

Lemma range_allOf_ext {A : Type} (eval eval' : A -> bool * option error)
  (l : list A) :
  (forall c, c ∈ l -> eval c = eval' c) ->
  range_allOf eval l = range_allOf eval' l.
Proof.
  induction l as [|c l IH]; intros Hl; simpl; [reflexivity|].
  rewrite <- (Hl c) by (apply elem_of_cons; now left).
  rewrite IH; [reflexivity|]. intros c' Hc'. apply Hl, elem_of_cons. now right.
Qed.

Lemma range_anyOf_ext {A : Type} (eval eval' : A -> bool * option error)
  (l : list A) :
  (forall c, c ∈ l -> eval c = eval' c) ->
  range_anyOf eval l = range_anyOf eval' l.
Proof.
  induction l as [|c l IH]; intros Hl; simpl; [reflexivity|].
  rewrite <- (Hl c) by (apply elem_of_cons; now left).
  rewrite IH; [reflexivity|]. intros c' Hc'. apply Hl, elem_of_cons. now right.
Qed.

Lemma actions_of_child {World : Type} (l : list (Evaluator World))
  (c : Evaluator World) (action : string) :
  c ∈ l -> action ∈ actions_of c -> action ∈ List.flat_map actions_of l.
Proof.
  intros Hc Ha. apply list_elem_of_In, in_flat_map. exists c.
  split; apply list_elem_of_In; assumption.
Qed.

(** X14.  [Evaluate] on an evaluator built from the three evaluators of the
    file reads the granted permissions only at the actions the evaluator
    names: two maps that agree on these actions give the same result. *)
Theorem Evaluate_reads_named_actions {World : Type}
  (ValidateScope : string -> bool) (e : Evaluator World)
  (p p' : gmap string (gset string)) :
  builtin e = true ->
  (forall action, action ∈ actions_of e -> p !! action = p' !! action) ->
  Evaluate ValidateScope e p = Evaluate ValidateScope e p'.
Proof.
  induction e as [Action Scopes|l IH|l IH|evaluate modifyScopes]
    using Evaluator_children_ind; intros Hb Hsame; simpl in Hb;
    [| | |discriminate].
  - simpl. rewrite (Hsame Action) by (apply list_elem_of_singleton; reflexivity).
    reflexivity.
  - simpl. apply range_allOf_ext. intros c Hc. rewrite Forall_forall in IH.
    apply IH; [exact Hc | apply (builtin_children l c Hb Hc) |].
    intros action Ha. apply Hsame. simpl. eapply actions_of_child; eassumption.
  - simpl. apply range_anyOf_ext. intros c Hc. rewrite Forall_forall in IH.
    apply IH; [exact Hc | apply (builtin_children l c Hb Hc) |].
    intros action Ha. apply Hsame. simpl. eapply actions_of_child; eassumption.
Qed.

Lemma Evaluate_reads_named_actions_witness :
  Evaluate SpecModel.ValidateScope
    (anyEvaluator [users_read; allEvaluator [users_read]])
    granted_users_read
  = Evaluate SpecModel.ValidateScope
      (anyEvaluator [users_read; allEvaluator [users_read]])
      {["users:read" := ∅; "teams:read" := {["teams:*"]}]}.
Proof.
  apply (Evaluate_reads_named_actions SpecModel.ValidateScope).
  - reflexivity.
  - intros action Ha. simpl in Ha.
    repeat (apply elem_of_cons in Ha as [->|Ha]);
      [vm_compute; reflexivity ..|inversion Ha].
Defined.

(** X15.  A grant of an action with no scope at all satisfies a permission
    for that action only if the permission requires no scope: with the
    empty set of scopes granted and at least one scope required, [Evaluate]
    is [(false, nil)]. *)
Theorem Evaluate_empty_grant {World : Type} (ValidateScope : string -> bool)
  (Action : string) (Scopes : option (list string))
  (permissions : gmap string (gset string)) :
  permissions !! Action = Some ∅ ->
  elems Scopes <> [] ->
  Evaluate (World:=World) ValidateScope
    (permissionEvaluator Action Scopes) permissions = (false, None).
Proof.
  intros Hp Hne. simpl. rewrite Hp. unfold len.
  destruct (elems Scopes) as [|t ts]; [congruence|]. simpl.
  now rewrite elements_empty.
Qed.

Lemma Evaluate_empty_grant_witness :
  Evaluate (World:=unit) SpecModel.ValidateScope
    (permissionEvaluator "users:read" (Some ["users:id:2"]))
    granted_users_read = (false, None).
Proof.
  apply Evaluate_empty_grant; [vm_compute; reflexivity | discriminate].
Defined.
